(** * NFA simulation with witness path (lab1/python/nfa.py)

    A shallow embedding of [Rule.match], [NFA.backtrace] and [NFA.exec]:
    an explicit-stack depth-first search over (state, remaining input)
    configurations, with a visited set on epsilon moves and a step-indexed
    trace dictionary from which the accepting path is rebuilt.

    Python values are modelled as follows.
    - [int] is [Z]; step counters, which start at 0 and only grow, are [nat].
    - [str] is [string]; a one-character string handed to [match] is its
      [ascii] code point (code points 0..255).
    - a [list] indexed by an [int] follows Python's rule: a negative index
      counts from the end, anything else out of range raises [IndexError].
    - the trace [dict] is a [gmap nat (Z * string)], the visited [set] a
      [gset (Z * string)].
    - exceptions are the [Raise] results of a small error monad.
    - an attribute that the class body only annotates can be missing: the
      [type] of a [Rule] is [Unset] until one is assigned, and reading it
      then raises [AttributeError].

    The definitions come first: the matcher, [backtrace], one turn of the
    loop of [exec] and the loop itself, then what the proofs speak of
    (accepting runs, the invariants of the search, the sample automata).
    The lemmas follow, then the numbered claims, and last further
    properties of the same code and of what stands beside it in the source:
    [Path.__str__], the lines of the entry point that pick the input string
    and print the result, and the loop of [NFA.from_text] that reads the
    rule tokens of one line. *)

From Stdlib Require Import ZArith Ascii String List Lia.
From stdpp Require Import gmap strings list fin_maps sorting.
From stdpp Require Import pretty.


(** ** Exceptions *)

Inductive exn : Type :=
| ValueError
| TypeError
| IndexError
| KeyError
| AttributeError.

Inductive result (A : Type) : Type :=
| Ok (a : A)
| Raise (e : exn).
Arguments Ok {A} a.
Arguments Raise {A} e.

Global Instance result_bind : MBind result := λ A B k r,
  match r with
  | Ok a => k a
  | Raise e => Raise e
  end.

(** ** Python primitives *)

(** [l[i]] for a Python list and an [int] index. *)
Definition py_index {A : Type} (l : list A) (i : Z) : result A :=
  let n := Z.of_nat (length l) in
  let j := if (i <? 0)%Z then (i + n)%Z else i in
  if ((0 <=? j)%Z && (j <? n)%Z)%bool then
    match l !! Z.to_nat j with
    | Some a => Ok a
    | None => Raise IndexError
    end
  else Raise IndexError.

(** [ord(s)]: defined on strings of length one only. *)
Definition py_ord (s : string) : result N :=
  match s with
  | String c EmptyString => Ok (N_of_ascii c)
  | _ => Raise TypeError
  end.

(** [s[0]]. *)
Definition py_head (s : string) : result ascii :=
  match s with
  | String c _ => Ok c
  | EmptyString => Raise IndexError
  end.

Definition in_range (lo hi n : N) : bool := ((lo <=? n)%N && (n <=? hi)%N)%bool.

(** [c.isdigit()]: the code points whose Unicode numeric type is Decimal
    or Digit; below 256 these are '0'..'9' and the superscripts U+00B2,
    U+00B3 and U+00B9. *)
Definition isdigit (c : ascii) : bool :=
  let n := N_of_ascii c in
  (in_range 48 57 n || (n =? 178)%N || (n =? 179)%N || (n =? 185)%N)%bool.

(** [c.isalpha()]: the letters (general category L) below 256. *)
Definition isalpha (c : ascii) : bool :=
  let n := N_of_ascii c in
  (in_range 65 90 n || in_range 97 122 n
   || (n =? 170)%N || (n =? 181)%N || (n =? 186)%N
   || in_range 192 214 n || in_range 216 246 n || in_range 248 255 n)%bool.

(** [c.isalnum()]: alphabetic, decimal, digit or numeric; the last adds
    the vulgar fractions U+00BC..U+00BE. *)
Definition isalnum (c : ascii) : bool :=
  (isalpha c || isdigit c || in_range 188 190 (N_of_ascii c))%bool.

(** [c.isspace()]: TAB..CR, the separators FS..US, space, NEL and NBSP. *)
Definition isspace (c : ascii) : bool :=
  let n := N_of_ascii c in
  (in_range 9 13 n || in_range 28 32 n || (n =? 133)%N || (n =? 160)%N)%bool.

(** A character of the 7-bit range the lab guarantees for rules and
    inputs. *)
Definition is_ascii (c : ascii) : Prop := (N_of_ascii c < 128)%N.

(** '0' through '9'. *)
Definition ascii_digit (c : ascii) : Prop := (48 <= N_of_ascii c <= 57)%N.

(** ** Rules *)

Inductive RuleType : Type :=
| NORMAL
| RANGE
| SPECIAL
| EPSILON.

Global Instance RuleType_eq_dec : EqDecision RuleType.
Proof. solve_decision. Defined.

(** What the attribute [type] of a [Rule] object holds. The class body only
    annotates it ([type: RuleType], no value), so a [Rule()] has no such
    attribute until one is assigned, and reading it raises AttributeError;
    [from_text] leaves it so on a token it cannot read. Nothing checks what
    is assigned either: [Foreign] stands for a value that is no member of
    [RuleType] and equal to none of them ([None], an [int], a [str]). *)
Inductive type_attr : Type :=
| Unset
| Member (t : RuleType)
| Foreign.

Coercion Member : RuleType >-> type_attr.

Global Instance type_attr_eq_dec : EqDecision type_attr.
Proof. solve_decision. Defined.

(** A [Rule] object. [dst] is assigned to every [Rule] the module makes;
    [by] and [to] have the class defaults, the empty string. *)
Record Rule : Type := mkRule {
  dst : Z;
  type : type_attr;
  by_ : string;
  to : string
}.

(** [Rule.match(self, c)]. *)
Definition match_ (self : Rule) (c : ascii) : result bool :=
  match type self with
  | Unset => Raise AttributeError
  | Member NORMAL => Ok (String.eqb (by_ self) (String c EmptyString))
  | Member RANGE =>
      lo ← py_ord (by_ self);
      if (lo <=? N_of_ascii c)%N then
        hi ← py_ord (to self);
        Ok (N_of_ascii c <=? hi)%N
      else Ok false
  | Member SPECIAL =>
      if String.eqb (by_ self) "d" then Ok (isdigit c)
      else if String.eqb (by_ self) "w" then
        Ok (isalnum c || Ascii.eqb c "_"%char)%bool
      else if String.eqb (by_ self) "s" then Ok (isspace c)
      else if String.eqb (by_ self) "D" then Ok (negb (isdigit c))
      else if String.eqb (by_ self) "W" then
        Ok (negb (isalnum c) && negb (Ascii.eqb c "_"%char))%bool
      else if String.eqb (by_ self) "S" then Ok (negb (isspace c))
      else if String.eqb (by_ self) "." then
        Ok (negb (Ascii.eqb c "010"%char) && negb (Ascii.eqb c "013"%char))%bool
      else Raise ValueError
  | Member EPSILON => Raise ValueError
  | Foreign => Raise ValueError
  end.

(** The class tags [match_] knows. *)
Definition known_tag (s : string) : Prop :=
  s = "d" ∨ s = "w" ∨ s = "s" ∨ s = "D" ∨ s = "W" ∨ s = "S" ∨ s = ".".

Definition single_char (s : string) : Prop := ∃ c, s = String c EmptyString.

(** The shape the field comments of [Rule] ask for: the bounds of a range
    rule are one character each. *)
Definition range_bounds_ok (r : Rule) : Prop :=
  type r = RANGE → single_char (by_ r) ∧ single_char (to r).

Definition raises {A : Type} (r : result A) : Prop := ∃ e, r = Raise e.

(** ** Paths and automata *)

Record Path : Type := mkPath {
  states : list Z;
  consumes : list string
}.

Record NFA : Type := mkNFA {
  num_states : Z;
  is_final : list bool;
  rules : list (list Rule)
}.

(** ** The trace dictionary and [NFA.backtrace] *)

(** [path[i]]. *)
Definition py_get (path : gmap nat (Z * string)) (i : nat) : result (Z * string) :=
  match path !! i with
  | Some v => Ok v
  | None => Raise KeyError
  end.

(** [max(path.keys())]; [max] of an empty sequence raises. *)
Definition max_key (path : gmap nat (Z * string)) : result nat :=
  match elements (dom path) with
  | [] => Raise ValueError
  | ks => Ok (max_list ks)
  end.

(** One turn of [for i in range(step, 0, -1)]: the state and the symbol
    appended to the two lists. *)
Definition backtrace_body (path : gmap nat (Z * string)) (i : nat)
    : result (Z * string) :=
  cur ← py_get path i;
  prev ← py_get path (i - 1);
  if String.eqb cur.2 prev.2 then Ok (cur.1, EmptyString)
  else
    c ← py_head prev.2;
    Ok (cur.1, String c EmptyString).

(** The loop, from [i] down to 1, with the two lists that the source grows
    by [append]. *)
Fixpoint backtrace_loop (path : gmap nat (Z * string)) (i : nat)
    (sts : list Z) (cns : list string) : result (list Z * list string) :=
  match i with
  | O => Ok (sts, cns)
  | S j =>
      '(q, c) ← backtrace_body path (S j);
      backtrace_loop path j (sts ++ [q]) (cns ++ [c])
  end.

Definition backtrace (path : gmap nat (Z * string)) : result Path :=
  step ← max_key path;
  '(sts, cns) ← backtrace_loop path step [] [];
  Ok {| states := rev (sts ++ [0%Z]); consumes := rev cns |}.

(** ** [NFA.exec] *)

(** A stack frame [(q, remaining_str, step)]. The stack is a list whose head
    is the top (the end of the Python list). *)
Definition Frame : Type := Z * string * nat.

Record Search : Type := mkSearch {
  stack : list Frame;
  path : gmap nat (Z * string);
  visited : gset (Z * string)
}.

(** The [for rule in ...] loop over an already reversed rule list. The test
    [rule.type == RuleType.EPSILON] reads the attribute, which raises on a
    rule that has none. *)
Fixpoint expand (rs : list Rule) (remaining_str : string) (step : nat)
    (stk : list Frame) (vis : gset (Z * string))
    : result (list Frame * gset (Z * string)) :=
  match rs with
  | [] => Ok (stk, vis)
  | rule :: rs' =>
      let next_state := (dst rule, remaining_str) in
      if decide (type rule = Unset) then Raise AttributeError
      else if decide (type rule = EPSILON) then
        if decide (next_state ∈ vis) then expand rs' remaining_str step stk vis
        else expand rs' remaining_str step
               ((dst rule, remaining_str, S step) :: stk) ({[next_state]} ∪ vis)
      else
        match remaining_str with
        | EmptyString => expand rs' remaining_str step stk vis
        | String c rest =>
            b ← match_ rule c;
            if b : bool then
              expand rs' remaining_str step ((dst rule, rest, S step) :: stk) vis
            else expand rs' remaining_str step stk vis
        end
  end.

Inductive outcome : Type :=
| Continue (s : Search)
| Return (r : option Path).

Definition is_empty (s : string) : bool :=
  match s with
  | EmptyString => true
  | String _ _ => false
  end.

(** One turn of [while stack:]. *)
Definition iteration (self : NFA) (s : Search) : result outcome :=
  match stack s with
  | [] => Ok (Return None)
  | (q, remaining_str, step) :: stk =>
      let path' := <[step := (q, remaining_str)]> (path s) in
      fin ← py_index (is_final self) q;
      if (fin && is_empty remaining_str)%bool then
        p ← backtrace path';
        Ok (Return (Some p))
      else
        rs ← py_index (rules self) q;
        '(stk', vis') ← expand (rev rs) remaining_str step stk (visited s);
        Ok (Continue {| stack := stk'; path := path'; visited := vis' |})
  end.

Definition init (text : string) : Search :=
  {| stack := [(0%Z, text, O)]; path := ∅; visited := ∅ |}.

(** The loop, cut after [fuel] turns; [None] means the cut was reached. *)
Fixpoint exec_loop (fuel : nat) (self : NFA) (s : Search)
    : option (result (option Path)) :=
  match fuel with
  | O => None
  | S fuel' =>
      match iteration self s with
      | Raise e => Some (Raise e)
      | Ok (Return r) => Some (Ok r)
      | Ok (Continue s') => exec_loop fuel' self s'
      end
  end.

(** The state after [n] turns, when the loop is still running. *)
Fixpoint run (n : nat) (self : NFA) (s : Search) : option Search :=
  match n with
  | O => Some s
  | S n' =>
      match iteration self s with
      | Ok (Continue s') => run n' self s'
      | _ => None
      end
  end.

(** *** A bound on the number of turns *)

(** The destinations of the epsilon rules of the automaton. *)
Definition eps_targets (self : NFA) : list Z :=
  remove_dups (dst <$> filter (λ r, type r = EPSILON) (concat (rules self))).

(** The largest number of rules leaving one state. *)
Definition max_out (self : NFA) : nat := max_list (length <$> rules self).

(** How many epsilon destinations are still unmarked for a given suffix. *)
Definition unmarked (self : NFA) (vis : gset (Z * string)) (remaining_str : string) : nat :=
  length (filter (λ d, (d, remaining_str) ∉ vis) (eps_targets self)).

Definition rank (self : NFA) (vis : gset (Z * string)) (remaining_str : string) : nat :=
  String.length remaining_str * S (length (eps_targets self))
  + unmarked self vis remaining_str.

Definition weight (self : NFA) (vis : gset (Z * string)) (f : Frame) : nat :=
  S (max_out self) ^ rank self vis f.1.2.

Definition measure (self : NFA) (stk : list Frame) (vis : gset (Z * string)) : nat :=
  sum_list (weight self vis <$> stk).

Definition exec_bound (self : NFA) (text : string) : positive :=
  N.succ_pos
    (N.of_nat (S (max_out self))
     ^ N.of_nat (String.length text * S (length (eps_targets self))
                 + length (eps_targets self)))%N.

(** The cut again, with the number of turns in binary: [p~0] turns are [p]
    turns twice, so a cut far beyond the end of the loop costs nothing.
    [inl s] is the state at the cut, [inr r] the result of the loop. *)
Fixpoint exec_cut (p : positive) (self : NFA) (s : Search)
    : Search + result (option Path) :=
  let twice (p' : positive) (s0 : Search) :=
    match exec_cut p' self s0 with
    | inl s1 => exec_cut p' self s1
    | inr r => inr r
    end in
  match p with
  | xH =>
      match iteration self s with
      | Ok (Continue s') => inl s'
      | Ok (Return r) => inr (Ok r)
      | Raise e => inr (Raise e)
      end
  | xO p' => twice p' s
  | xI p' =>
      match iteration self s with
      | Ok (Continue s') => twice p' s'
      | Ok (Return r) => inr (Ok r)
      | Raise e => inr (Raise e)
      end
  end.

(** [NFA.exec]: the loop run for [exec_bound] turns, which is always enough;
    the last branch is never taken (lemma [exec_cut_total]). *)
Definition exec (self : NFA) (text : string) : result (option Path) :=
  match exec_cut (exec_bound self text) self (init text) with
  | inr r => r
  | inl _ => Ok None
  end.

(** What [exec_cut] returns, in terms of the unary cut. *)
Definition cut_spec (self : NFA) (n : nat) (s : Search)
    (c : Search + result (option Path)) : Prop :=
  match c with
  | inr r => exec_loop n self s = Some r
  | inl s' => run n self s = Some s'
  end.

(** ** Accepting runs *)

Definition config : Type := Z * string.

Inductive move (self : NFA) : config → config → Prop :=
| move_epsilon q remaining_str rs r :
    py_index (rules self) q = Ok rs → r ∈ rs → type r = EPSILON →
    move self (q, remaining_str) (dst r, remaining_str)
| move_char q c rest rs r :
    py_index (rules self) q = Ok rs → r ∈ rs → type r ≠ EPSILON →
    match_ r c = Ok true →
    move self (q, String c rest) (dst r, rest).

Definition accepting (self : NFA) (cfg : config) : Prop :=
  py_index (is_final self) cfg.1 = Ok true ∧ cfg.2 = EmptyString.

(** A sequence of transitions from state 0 that consumes the whole input
    and ends in a final state. *)
Definition accepting_run (self : NFA) (text : string) : Prop :=
  ∃ cfg, rtc (move self) (0%Z, text) cfg ∧ accepting self cfg.

(** Automata as the loader builds them from a valid description. *)
Record well_formed (self : NFA) : Prop := {
  wf_states : (0 < num_states self)%Z;
  wf_final : Z.of_nat (length (is_final self)) = num_states self;
  wf_rules : Z.of_nat (length (rules self)) = num_states self;
  wf_dst : ∀ rs r, rs ∈ rules self → r ∈ rs → (0 <= dst r < num_states self)%Z;
  wf_type : ∀ rs r, rs ∈ rules self → r ∈ rs → ∃ t : RuleType, type r = t;
  wf_tag : ∀ rs r, rs ∈ rules self → r ∈ rs → type r = SPECIAL → known_tag (by_ r);
  wf_range : ∀ rs r, rs ∈ rules self → r ∈ rs → range_bounds_ok r
}.

(** ** Invariants of the search *)

(** Concatenation of the consumed symbols. *)
Definition join (l : list string) : string := foldr String.append EmptyString l.

Definition nonempty (s : string) : bool := negb (is_empty s).

(** One transition leaves the remaining input alone or removes its first
    character. *)
Definition step_rel (before after : string) : Prop :=
  after = before ∨ ∃ c, before = String c after.

(** Entries [0..n] of the trace are a run from [(0, text)]. *)
Definition trace_ok (text : string) (path : gmap nat (Z * string)) (n : nat) : Prop :=
  path !! 0 = Some (0%Z, text)
  ∧ ∀ i, (i < n)%nat →
      ∃ a b, path !! i = Some a ∧ path !! S i = Some b ∧ step_rel a.2 b.2.

(** A pending frame continues the run recorded below its step. *)
Definition frame_ok (text : string) (path : gmap nat (Z * string)) (f : Frame) : Prop :=
  match f.2 with
  | O => f.1 = (0%Z, text)
  | S j => trace_ok text path j ∧ ∃ a, path !! j = Some a ∧ step_rel a.2 f.1.2
  end.

(** The keys of the trace are exactly the numbers below [k]. *)
Definition contiguous (path : gmap nat (Z * string)) (k : nat) : Prop :=
  ∀ i, is_Some (path !! i) ↔ (i < k)%nat.

Record search_inv (text : string) (s : Search) : Prop := {
  inv_keys : ∃ k, contiguous (path s) k ∧ Forall (λ f : Frame, (f.2 ≤ k)%nat) (stack s);
  inv_sorted : StronglySorted (λ f g : Frame, (g.2 ≤ f.2)%nat) (stack s);
  inv_frames : Forall (frame_ok text (path s)) (stack s)
}.

(** *** What one turn pushes *)

(** [s[1:]]. *)
Definition py_tail (s : string) : string :=
  match s with
  | EmptyString => EmptyString
  | String _ rest => rest
  end.

(** The frame a rule pushes when it fires on the frame
    [(q, remaining_str, step)]. *)
Definition child (remaining_str : string) (step : nat) (r : Rule) : Frame :=
  (dst r,
   if decide (type r = EPSILON) then remaining_str else py_tail remaining_str,
   S step).

(** Whether the rule [r] of the popped frame pushes a frame, for the marks
    [vis] the turn starts with. [later] are the rules declared after [r]: the
    loop goes through the rules in reverse, so it has tried them before.
    An epsilon rule pushes when its target configuration is unmarked and no
    later epsilon rule leads to the same state (the first one tried would
    have marked it in this turn); any other rule pushes when it matches the
    first character of the remaining input. *)
Definition fires (vis : gset (Z * string)) (remaining_str : string)
    (later : list Rule) (r : Rule) : bool :=
  if decide (type r = EPSILON) then
    bool_decide (((dst r, remaining_str) ∉ vis)
                 ∧ Forall (λ r', ¬ (type r' = EPSILON ∧ dst r' = dst r)) later)
  else
    match remaining_str with
    | EmptyString => false
    | String c _ =>
        match match_ r c with
        | Ok true => true
        | _ => false
        end
    end.

(** The rules of [rs] that fire, in the order of [rs]. *)
Fixpoint fired (vis : gset (Z * string)) (remaining_str : string) (rs : list Rule)
    : list Rule :=
  match rs with
  | [] => []
  | r :: later =>
      if fires vis remaining_str later r then r :: fired vis remaining_str later
      else fired vis remaining_str later
  end.

(** The target configurations of the epsilon rules among [rs]. *)
Definition eps_configs (remaining_str : string) (rs : list Rule) : list (Z * string) :=
  (λ r, (dst r, remaining_str)) <$> filter (λ r, type r = EPSILON) rs.



(** The configurations of the frames that kept the remaining input whole. *)
Definition kept_input (remaining_str : string) (fs : list Frame) : list (Z * string) :=
  fst <$> filter (λ f : Frame, f.1.2 = remaining_str) fs.

(** What is known of a frame that [expand] pushed while it went through
    the rules [rs]: it sits one step further, and either an epsilon rule put
    it there, for a configuration unmarked until then, or a rule that
    matched the first character of the remaining input. *)
Definition pushed_ok (rs : list Rule) (remaining_str : string) (step : nat)
    (vis vis' : gset (Z * string)) (f : Frame) : Prop :=
  f.2 = S step
  ∧ ((f.1.2 = remaining_str ∧ (f.1 ∉ vis) ∧ f.1 ∈ vis'
      ∧ ∃ r, r ∈ rs ∧ type r = EPSILON ∧ dst r = f.1.1)
     ∨ (∃ c r, remaining_str = String c f.1.2 ∧ r ∈ rs ∧ type r ≠ EPSILON
          ∧ match_ r c = Ok true ∧ dst r = f.1.1)).

(** *** Reachability *)

Definition reachable (self : NFA) (text : string) (cfg : config) : Prop :=
  rtc (move self) (0%Z, text) cfg.

(** [D] collects the configurations already expanded: none accepts, and
    every successor of one of them is expanded or pending. *)
Record closed (self : NFA) (text : string) (s : Search) (D : config → Prop) : Prop := {
  cl_init : D (0%Z, text) ∨ (0%Z, text) ∈ fst <$> stack s;
  cl_reject : ∀ c, D c → ¬ accepting self c;
  cl_move : ∀ c c', D c → move self c c' → D c' ∨ c' ∈ fst <$> stack s;
  cl_visited : ∀ c, c ∈ visited s → D c ∨ c ∈ fst <$> stack s
}.

(** ** Sample automata *)

Definition epsilon_rule (d : Z) : Rule := mkRule d EPSILON "" "".
Definition normal_rule (d : Z) (c : string) : Rule := mkRule d NORMAL c "".

(** states: 6, final: 2, rules [0->3 \e], [0->1 a], [1->2 b], [3->4 \e],
    [4->5 \e]: an epsilon chain that dies out is tried before the run
    through [a] and [b]. *)
Definition nfa_dead_end_ab : NFA :=
  {| num_states := 6;
     is_final := [false; false; true; false; false; false];
     rules := [ [epsilon_rule 3; normal_rule 1 "a"];
                [normal_rule 2 "b"];
                [];
                [epsilon_rule 4];
                [epsilon_rule 5];
                [] ] |}.

(** states: 4, final: 3, rules [0->1 \e], [0->3 \e], [1->2 \e]. *)
Definition nfa_dead_end_eps : NFA :=
  {| num_states := 4;
     is_final := [false; false; false; true];
     rules := [ [epsilon_rule 1; epsilon_rule 3]; [epsilon_rule 2]; []; [] ] |}.

(** states: 2, final: 1, rules [0->0 \e], [0->1 a]. *)
Definition nfa_self_loop : NFA :=
  {| num_states := 2;
     is_final := [false; true];
     rules := [ [epsilon_rule 0; normal_rule 1 "a"]; [] ] |}.


(** states: 1, final: 0, no rules. *)
Definition nfa_start_final : NFA :=
  {| num_states := 1; is_final := [true]; rules := [ [] ] |}.

(** states: 2, final: 1, rules line [0->1 a bc d]: the loader reads [a],
    stops on [bc] and leaves a rule without a type behind. *)
Definition nfa_unread_token : NFA :=
  {| num_states := 2;
     is_final := [false; true];
     rules := [ [normal_rule 1 "a"; mkRule 1 Unset "" ""]; [] ] |}.

(** states: 2, final: 1, and the single rule given. *)
Definition nfa_one_rule (r : Rule) : NFA :=
  {| num_states := 2; is_final := [false; true]; rules := [ [r]; [] ] |}.

(** ** Further definitions *)

(** [A-Za-z0-9_]. *)
Definition word_char (c : ascii) : Prop :=
  let n := N_of_ascii c in
  ((65 <= n <= 90) ∨ (97 <= n <= 122) ∨ (48 <= n <= 57) ∨ n = 95)%N.

(** TAB, LF, VT, FF, CR, the separators FS, GS, RS, US, and the space. *)
Definition ascii_space (c : ascii) : Prop :=
  let n := N_of_ascii c in ((9 <= n <= 13) ∨ (28 <= n <= 32))%N.

(** ** [Path.__str__] and the entry point *)

(** What they can raise: a builtin exception or the [AssertionError] of
    [Path.__str__]. *)
Inductive error : Type :=
| Builtin (e : exn)
| AssertionError.

Inductive raised (A : Type) : Type :=
| Value (a : A)
| Raised (e : error).
Arguments Value {A} a.
Arguments Raised {A} e.

(** [str(n)] for an [int]: decimal digits, a minus sign before a negative
    number. *)
Definition py_str (n : Z) : string := pretty n.

(** The body of [for i in range(len(self.consumes))], from index [i] on for
    [n] turns, with the text built so far. *)
Fixpoint str_loop (self : Path) (i n : nat) (text : string) : result string :=
  match n with
  | O => Ok text
  | S n' =>
      q ← py_index (states self) (Z.of_nat i);
      c ← py_index (consumes self) (Z.of_nat i);
      str_loop self (S i) n' (text +:+ (py_str q +:+ " " +:+ c +:+ " "))
  end.

(** [Path.__str__]. *)
Definition Path_str (self : Path) : raised string :=
  if decide (Z.of_nat (length (consumes self)) ≠ (Z.of_nat (length (states self)) - 1)%Z)
  then Raised AssertionError
  else
    match str_loop self 0 (length (consumes self)) EmptyString with
    | Raise e => Raised (Builtin e)
    | Ok text =>
        match py_index (states self) (-1) with
        | Raise e => Raised (Builtin e)
        | Ok q => Value (text +:+ py_str q)
        end
    end.

(** What the entry point prints for an automaton and an input string. *)
Definition report (self : NFA) (input_str : string) : raised string :=
  match exec self input_str with
  | Raise e => Raised (Builtin e)
  | Ok None => Value "Reject"
  | Ok (Some p) => Path_str p
  end.

(** [s[n:]]. *)
Fixpoint py_drop (n : nat) (s : string) : string :=
  match n, s with
  | O, _ => s
  | S n', String _ rest => py_drop n' rest
  | S _, EmptyString => EmptyString
  end.

(** [line.startswith("input: ")]. *)
Definition is_input_line (line : string) : bool := String.prefix "input: " line.

(** The loop of the entry point over the lines of the file. *)
Fixpoint find_input_loop (lines : list string) (input_str : option string)
    : option string :=
  match lines with
  | [] => input_str
  | line :: lines' =>
      find_input_loop lines'
        (if is_input_line line then Some (py_drop 7 line) else input_str)
  end.

Definition find_input (lines : list string) : result string :=
  match find_input_loop lines None with
  | Some input_str => Ok input_str
  | None => Raise ValueError
  end.

(** One piece of the text of a path: a state, a space, the consumed symbol,
    a space. *)
Definition str_piece (q : Z) (c : string) : string :=
  py_str q +:+ " " +:+ c +:+ " ".

(** ** The rule tokens of [NFA.from_text] *)

(** [s.find(c)] for a one-character [c]: the first index, or -1. *)
Fixpoint py_find (c : ascii) (s : string) : Z :=
  match s with
  | EmptyString => (-1)%Z
  | String a rest =>
      if Ascii.eqb a c then 0%Z
      else let i := py_find c rest in if (i =? -1)%Z then (-1)%Z else (i + 1)%Z
  end.

(** [s[i]] for an index that is not negative. *)
Definition py_char (s : string) (i : nat) : result ascii :=
  match String.get i s with
  | Some c => Ok c
  | None => Raise IndexError
  end.

(** The object [Rule()] with [dst] assigned and nothing else: what a token of
    no known shape leaves behind. *)
Definition bare_rule (dst : Z) : Rule := mkRule dst Unset EmptyString EmptyString.

(** One turn of [while success and content != ""] up to the lookup of
    [nfa.rules[src]]: the rule made, the new [success] and the new
    [content]. *)
Definition read_token (dst : Z) (content : string)
    : result (Rule * bool * string) :=
  let p := py_find " " content in
  let p := if (p =? -1)%Z then Z.of_nat (String.length content)
           else if (p =? 0)%Z then 1%Z else p in
  let content' := py_drop (Z.to_nat (p + 1)) content in
  is_range ← (if (p =? 3)%Z then c ← py_char content 1; Ok (Ascii.eqb c "-")
              else Ok false);
  if is_range : bool then
    lo ← py_char content 0;
    hi ← py_char content 2;
    Ok (mkRule dst RANGE (String lo EmptyString) (String hi EmptyString),
        true, content')
  else
    is_class ← (if (p =? 2)%Z then c ← py_char content 0; Ok (Ascii.eqb c "\")
                else Ok false);
    if is_class : bool then
      c ← py_char content 1;
      if Ascii.eqb c "e" then
        Ok (mkRule dst EPSILON EmptyString EmptyString, true, content')
      else
        tag ← py_char content 1;
        Ok (mkRule dst SPECIAL (String tag EmptyString) EmptyString,
            true, content')
    else
      is_normal ← (if (p =? 1)%Z then
                     if (Z.of_nat (String.length content) <=? p)%Z then Ok true
                     else c ← py_char content (Z.to_nat p); Ok (Ascii.eqb c " ")
                   else Ok false);
      if is_normal : bool then
        c ← py_char content 0;
        Ok (mkRule dst NORMAL (String c EmptyString) EmptyString,
            true, content')
      else Ok (bare_rule dst, false, content').

(** The place of [l[i]] in [l], for an index in range. *)
Definition position {A : Type} (l : list A) (i : Z) : nat :=
  Z.to_nat (if (i <? 0)%Z then (i + Z.of_nat (length l))%Z else i).

(** [rules[src].append(rule)]: the lookup raises IndexError when [src] is
    out of range. The lists of [rules] are distinct objects (line 187 makes
    one per state), so only the one looked up changes. *)
Definition append_rule (rules : list (list Rule)) (src : Z) (rule : Rule)
    : result (list (list Rule)) :=
  rules_src ← py_index rules src;
  Ok (<[position rules src := rules_src ++ [rule]]> rules).

(** [[[] for _ in range(n)]]: the rules of an automaton of [n] states before
    any rule is read. *)
Definition no_rules (n : nat) : list (list Rule) := replicate n [].

(** The loop, cut after [fuel] turns, on [nfa.rules]; [None] means the cut
    was reached. [src] is what [int] made of the text before the arrow, and
    nothing has checked it. *)
Fixpoint read_tokens (fuel : nat) (src dst : Z) (content : string)
    (rules : list (list Rule)) : option (result (list (list Rule) * bool)) :=
  match fuel with
  | O => None
  | S fuel' =>
      if is_empty content then Some (Ok (rules, true))
      else
        match read_token dst content with
        | Raise e => Some (Raise e)
        | Ok (rule, success, content') =>
            match append_rule rules src rule with
            | Raise e => Some (Raise e)
            | Ok rules' =>
                if success : bool then read_tokens fuel' src dst content' rules'
                else Some (Ok (rules', false))
            end
        end
  end.

(** Every turn shortens [content], so one turn more than its length is
    enough. *)
Definition rule_tokens (src dst : Z) (content : string) (rules : list (list Rule))
    : option (result (list (list Rule) * bool)) :=
  read_tokens (S (String.length content)) src dst content rules.

(** The fields of a rule as the comments of [Rule] describe them. *)
Definition rule_shape (r : Rule) : Prop :=
  match type r with
  | Member NORMAL => single_char (by_ r) ∧ to r = EmptyString
  | Member RANGE => single_char (by_ r) ∧ single_char (to r)
  | Member SPECIAL => single_char (by_ r) ∧ by_ r ≠ "e" ∧ to r = EmptyString
  | Member EPSILON => by_ r = EmptyString ∧ to r = EmptyString
  | Unset | Foreign => False
  end.

(** The token of a rule in an automaton description; a rule whose type is
    no member of [RuleType] has none. *)
Definition token (r : Rule) : string :=
  match type r with
  | Member NORMAL => by_ r
  | Member RANGE => by_ r +:+ "-" +:+ to r
  | Member SPECIAL => "\" +:+ by_ r
  | Member EPSILON => "\e"
  | Unset | Foreign => EmptyString
  end.

(** The rules that have a token which reads back: no space as a bound of a
    range or as a class tag. *)
Definition has_token (r : Rule) : Prop :=
  match type r with
  | Member NORMAL => single_char (by_ r) ∧ to r = EmptyString
  | Member RANGE =>
      ∃ lo hi, by_ r = String lo EmptyString ∧ to r = String hi EmptyString
               ∧ lo ≠ " "%char ∧ hi ≠ " "%char
  | Member SPECIAL =>
      ∃ tag, by_ r = String tag EmptyString ∧ to r = EmptyString
             ∧ tag ≠ " "%char ∧ tag ≠ "e"%char
  | Member EPSILON => by_ r = EmptyString ∧ to r = EmptyString
  | Unset | Foreign => False
  end.

(** The rule object one token leaves behind. *)
Definition token_rule (d : Z) (r : Rule) (success : bool) : Prop :=
  if success then dst r = d ∧ rule_shape r
  else r = bare_rule d.

(** What the loop has appended when it ends. *)
Definition tokens_read (d : Z) (rs : list Rule) (success : bool) : Prop :=
  if success then Forall (λ r, token_rule d r true) rs
  else ∃ rs', rs = rs' ++ [bare_rule d] ∧ Forall (λ r, token_rule d r true) rs'.

(** What follows a token: nothing, or a space and the other tokens. *)
Definition follows (rest more : string) : Prop :=
  (rest = EmptyString ∧ more = EmptyString) ∨ rest = String " " more.

(** ** Sample traces *)

(** The trace of the run 0 -a-> 1 -epsilon-> 2 on the input ab, cut there. *)
Definition trace_a_eps : gmap nat (Z * string) :=
  <[2:=(2%Z, "b")]> (<[1:=(1%Z, "b")]> (<[0:=(0%Z, "ab")]> ∅)).

(** The trace [exec] hands to [backtrace] on [nfa_dead_end_ab] and the input
    ab: the entry of step 3 is left from the dead branch. *)
Definition trace_stale : gmap nat (Z * string) :=
  <[3:=(5%Z, "ab")]> (<[2:=(2%Z, "")]> (<[1:=(1%Z, "b")]> (<[0:=(0%Z, "ab")]> ∅))).

(** * Properties of the character matcher *)

Section Matcher.

Lemma in_range_spec lo hi n :
  in_range lo hi n = true ↔ (lo <= n <= hi)%N.
Proof.
  unfold in_range. rewrite andb_true_iff, !N.leb_le. tauto.
Qed.

Lemma isdigit_ascii c : is_ascii c → isdigit c = true ↔ ascii_digit c.
Proof.
  unfold is_ascii, isdigit, ascii_digit. intros Hc.
  rewrite !orb_true_iff, in_range_spec, !N.eqb_eq. lia.
Qed.

Lemma match_special_d r c :
  type r = SPECIAL → by_ r = "d" → match_ r c = Ok (isdigit c).
Proof. unfold match_. intros -> ->. reflexivity. Qed.

Lemma py_ord_single s : single_char s → ∃ n, py_ord s = Ok n.
Proof. intros [c ->]. eauto. Qed.

Lemma match_special_known r c :
  type r = SPECIAL → known_tag (by_ r) → ∃ b, match_ r c = Ok b.
Proof.
  unfold match_, known_tag. intros ->.
  intros [-> | [-> | [-> | [-> | [-> | [-> | ->]]]]]]; simpl; eauto.
Qed.

Lemma match_special_unknown r c :
  type r = SPECIAL → ¬ known_tag (by_ r) → match_ r c = Raise ValueError.
Proof.
  unfold match_, known_tag. intros -> Hk.
  repeat match goal with
  | |- context [String.eqb ?a ?b] =>
      destruct (String.eqb_spec a b); [exfalso; apply Hk; tauto |]
  end.
  reflexivity.
Qed.

Lemma match_range_ok r c :
  type r = RANGE → single_char (by_ r) → single_char (to r) →
  ∃ b, match_ r c = Ok b.
Proof.
  unfold match_. intros -> [lo ->] [hi ->]. simpl.
  destruct (_ <=? _)%N; simpl; eauto.
Qed.

Lemma match_normal_ok r c :
  type r = NORMAL → match_ r c = Ok (String.eqb (by_ r) (String c EmptyString)).
Proof. unfold match_. intros ->. reflexivity. Qed.

Lemma match_epsilon r c : type r = EPSILON → match_ r c = Raise ValueError.
Proof. unfold match_. intros ->. reflexivity. Qed.

End Matcher.

(** * Strings and the path rebuilt by backtrace *)

Section Backtrace.
Implicit Types (path : gmap nat (Z * string)) (i j : nat).

Lemma backtrace_loop_acc path i sts cns :
  backtrace_loop path i sts cns =
    '(qs, cs) ← backtrace_loop path i [] []; Ok (sts ++ qs, cns ++ cs).
Proof.
  revert sts cns. induction i as [|j IH]; intros sts cns; simpl.
  - by rewrite !app_nil_r.
  - destruct (backtrace_body path (S j)) as [[q c]|e]; simpl; [|done].
    rewrite (IH (sts ++ [q]) (cns ++ [c])), (IH [q] [c]).
    destruct (backtrace_loop path j [] []) as [[qs cs]|e]; simpl; [|done].
    by rewrite <- !app_assoc.
Qed.

Lemma backtrace_loop_S path j :
  backtrace_loop path (S j) [] [] =
    '(q, c) ← backtrace_body path (S j);
    '(qs, cs) ← backtrace_loop path j [] [];
    Ok (q :: qs, c :: cs).
Proof.
  simpl. destruct (backtrace_body path (S j)) as [[q c]|e]; simpl; [|done].
  by rewrite backtrace_loop_acc.
Qed.

Lemma backtrace_loop_length path i qs cs :
  backtrace_loop path i [] [] = Ok (qs, cs) → length qs = i ∧ length cs = i.
Proof.
  revert qs cs. induction i as [|j IH]; intros qs cs.
  - simpl. intros [= <- <-]. done.
  - rewrite backtrace_loop_S.
    destruct (backtrace_body path (S j)) as [[q c]|e]; simpl; [|done].
    destruct (backtrace_loop path j [] []) as [[qs' cs']|e]; simpl; [|done].
    intros [= <- <-]. destruct (IH qs' cs' eq_refl). simpl. lia.
Qed.

Lemma backtrace_shape path p :
  backtrace path = Ok p →
  head (states p) = Some 0%Z ∧ length (consumes p) = length (states p) - 1.
Proof.
  unfold backtrace. destruct (max_key path) as [step|e]; simpl; [|done].
  destruct (backtrace_loop path step [] []) as [[qs cs]|e] eqn:Hl; simpl; [|done].
  intros [= <-]. simpl. apply backtrace_loop_length in Hl as [Hq Hc].
  rewrite rev_app_distr. simpl. split; [done|].
  rewrite !length_rev. lia.
Qed.
End Backtrace.

Section Strings.
Lemma append_nil_l s : "" +:+ s = s.
Proof. reflexivity. Qed.

Lemma append_cons c s t : String c s +:+ t = String c (s +:+ t).
Proof. reflexivity. Qed.

Lemma append_nil_r s : s +:+ "" = s.
Proof. induction s as [|c s IH]; [done | by rewrite append_cons, IH]. Qed.

Lemma append_assoc s1 s2 s3 : (s1 +:+ s2) +:+ s3 = s1 +:+ (s2 +:+ s3).
Proof.
  induction s1 as [|c s IH]; [done | by rewrite !append_cons, IH].
Qed.

Lemma string_cons_neq c s : s ≠ String c s.
Proof.
  intros H. apply (f_equal String.length) in H. simpl in H. lia.
Qed.

Lemma join_app l1 l2 : join (l1 ++ l2) = join l1 +:+ join l2.
Proof.
  induction l1 as [|s l1 IH]; simpl; [done|]. by rewrite IH, append_assoc.
Qed.

Lemma join_filter_nonempty l : join (filter (λ s, nonempty s = true) l) = join l.
Proof.
  induction l as [|s l IH]; [done|].
  rewrite filter_cons. destruct s as [|c s]; simpl.
  - by rewrite append_nil_l.
  - by rewrite IH.
Qed.
End Strings.

Section BacktraceJoin.
Implicit Types (path : gmap nat (Z * string)) (i j : nat).

Lemma py_get_Ok path i a : py_get path i = Ok a → path !! i = Some a.
Proof. unfold py_get. destruct (path !! i); [|done]. by intros [= ->]. Qed.

Lemma backtrace_body_Ok path j q c :
  backtrace_body path (S j) = Ok (q, c) →
  ∃ cur prev, path !! S j = Some cur ∧ path !! j = Some prev ∧ q = cur.1
    ∧ ((cur.2 = prev.2 ∧ c = "")
       ∨ (cur.2 ≠ prev.2 ∧ ∃ ch rest, prev.2 = String ch rest ∧ c = String ch "")).
Proof.
  unfold backtrace_body. simpl. rewrite Nat.sub_0_r.
  destruct (py_get path (S j)) as [cur|] eqn:Hc; simpl; [|done].
  destruct (py_get path j) as [prev|] eqn:Hp; simpl; [|done].
  apply py_get_Ok in Hc, Hp. intros H. exists cur, prev.
  split; [done|]. split; [done|].
  destruct (String.eqb_spec cur.2 prev.2) as [Heq|Hne].
  - injection H as <- <-. eauto.
  - destruct prev.2 as [|ch rest] eqn:Hr; simpl in H; [done|].
    injection H as <- <-. split; [done|]. right. split; [done|]. eauto.
Qed.

Lemma backtrace_loop_join text path N q i qs cs :
  trace_ok text path N → path !! N = Some (q, "") →
  backtrace_loop path i [] [] = Ok (qs, cs) →
  ∃ a, path !! i = Some a ∧ join (rev cs) +:+ a.2 = text ∧ (N ≤ i → a.2 = "").
Proof.
  intros [H0 Hrun] HN. revert qs cs. induction i as [|j IH]; intros qs cs.
  - simpl. intros [= <- <-]. exists (0%Z, text). split; [done|]. split; [done|].
    intros Hle. assert (N = 0) as -> by lia. simpl. congruence.
  - rewrite backtrace_loop_S.
    destruct (backtrace_body path (S j)) as [[q' c]|e] eqn:Hb; simpl; [|done].
    destruct (backtrace_loop path j [] []) as [[qs' cs']|e]; simpl; [|done].
    intros [= <- <-].
    destruct (IH qs' cs' eq_refl) as (a & Ha & Hjoin & Hend).
    apply backtrace_body_Ok in Hb as (cur & prev & Hcur & Hprev & _ & Hc).
    assert (prev = a) as -> by congruence.
    exists cur. split; [done|]. simpl. rewrite join_app. simpl.
    destruct (decide (j < N)) as [Hlt|Hge].
    + destruct (Hrun j Hlt) as (a' & b' & Ha' & Hb' & Hstep).
      assert (a' = a) as -> by congruence. assert (b' = cur) as -> by congruence.
      split.
      * destruct Hc as [[Heq ->] | [Hne (ch & rest & Hpr & ->)]].
        -- rewrite !append_nil_r, Heq. done.
        -- destruct Hstep as [Hs | [c0 Hs]]; [congruence|].
           rewrite append_nil_r, append_assoc, append_cons, append_nil_l.
           rewrite <- Hjoin. f_equal.
           rewrite Hs in Hpr |- *. by injection Hpr as -> _.
      * intros Hle. assert (N = S j) as -> by lia.
        rewrite HN in Hcur. by injection Hcur as <-.
    + rewrite (Hend ltac:(lia)) in Hjoin. rewrite append_nil_r in Hjoin.
      rewrite (Hend ltac:(lia)) in Hc.
      destruct Hc as [[Heq ->] | [_ (ch & rest & Hpr & _)]]; [|done].
      rewrite Heq, !append_nil_r. done.
Qed.

Lemma max_key_Ok path m i :
  max_key path = Ok m → is_Some (path !! i) → i ≤ m ∧ is_Some (path !! m).
Proof.
  unfold max_key. intros Hm Hi.
  assert (elements (dom path) ≠ [] ∧ m = max_list (elements (dom path)))
    as [Hne ->].
  { destruct (elements (dom path)); [done|]. split; [done | congruence]. }
  split.
  - apply max_list_elem_of_le. apply elem_of_elements, elem_of_dom. done.
  - apply elem_of_dom, elem_of_elements, max_list_elem_of. done.
Qed.

Lemma backtrace_join text path N q p :
  trace_ok text path N → path !! N = Some (q, "") →
  backtrace path = Ok p → join (consumes p) = text.
Proof.
  intros Hrun HN. unfold backtrace.
  destruct (max_key path) as [m|e] eqn:Hm; simpl; [|done].
  destruct (backtrace_loop path m [] []) as [[qs cs]|e] eqn:Hl; simpl; [|done].
  intros [= <-]. simpl.
  destruct (max_key_Ok path m N Hm) as [Hle _]; [by rewrite HN|].
  destruct (backtrace_loop_join text path N q m qs cs Hrun HN Hl)
    as (a & _ & Hjoin & Hend).
  rewrite (Hend Hle), append_nil_r in Hjoin. done.
Qed.
End BacktraceJoin.

(** * What expand pushes *)

Section Expand.
Implicit Types (rs : list Rule) (stk new : list Frame) (vis : gset (Z * string)).

Lemma kept_input_app remaining_str fs gs :
  kept_input remaining_str (fs ++ gs)
  = kept_input remaining_str fs ++ kept_input remaining_str gs.
Proof. unfold kept_input. by rewrite filter_app, fmap_app. Qed.

Lemma expand_spec rs remaining_str step stk vis stk' vis' :
  expand rs remaining_str step stk vis = Ok (stk', vis') →
  ∃ new, stk' = new ++ stk ∧ length new ≤ length rs ∧ vis ⊆ vis'
    ∧ Forall (pushed_ok rs remaining_str step vis vis') new
    ∧ NoDup (kept_input remaining_str new)
    ∧ (∀ cfg, cfg ∈ vis' → cfg ∈ vis ∨ cfg ∈ kept_input remaining_str new).
Proof.
  revert stk vis. induction rs as [|rule rs IH]; intros stk vis; simpl.
  - intros [= <- <-]. exists []. repeat split; auto; try constructor.
  - assert (Hweak : ∀ v v' new,
       Forall (pushed_ok rs remaining_str step v v') new → vis ⊆ v →
       Forall (pushed_ok (rule :: rs) remaining_str step vis v') new).
    { intros v v' new HF Hsub. eapply Forall_impl; [exact HF|].
      intros f [Hs [(Hr & Hn & Hi & r & Hin & Ht & Hd)
                    | (c & r & Hc & Hin & Ht & Hm & Hd)]]; (split; [done|]).
      - left. repeat split; auto. exists r. split; [by right | done].
      - right. exists c, r. split; [done|]. split; [by right | done]. }
    destruct (decide (type rule = Unset)) as [|Hset]; [done|].
    destruct (decide (type rule = EPSILON)) as [Heps|Hne].
    + destruct (decide ((dst rule, remaining_str) ∈ vis)) as [Hin|Hnin].
      * intros H. destruct (IH _ _ H) as (new & -> & Hlen & Hsub & HF & Hnd & Hvis).
        exists new. repeat split; auto. eapply Hweak; eauto.
      * intros H. destruct (IH _ _ H) as (new & -> & Hlen & Hsub & HF & Hnd & Hvis).
        exists (new ++ [(dst rule, remaining_str, S step)]).
        assert (Hk : kept_input remaining_str [(dst rule, remaining_str, S step)]
                     = [(dst rule, remaining_str)]).
        { unfold kept_input. rewrite filter_cons_True by done. done. }
        split; [by rewrite <- app_assoc|].
        split; [rewrite length_app; simpl; lia|].
        split; [set_solver|].
        split; [|split].
        -- apply Forall_app. split.
           ++ eapply Hweak; [exact HF | set_solver].
           ++ constructor; [|constructor]. split; [done|]. left. simpl.
              repeat split; auto; [set_solver|]. exists rule. split; [by left | done].
        -- rewrite kept_input_app, Hk. apply NoDup_app. split; [done|].
           split; [|apply NoDup_singleton].
           intros cfg Hcfg ->%list_elem_of_singleton.
           unfold kept_input in Hcfg. apply list_elem_of_fmap in Hcfg as (f & Hf1 & Hf).
           apply list_elem_of_filter in Hf as [_ Hf].
           rewrite Forall_forall in HF.
           destruct (HF f Hf) as [_ [(_ & Hn & _) | (c & _ & Hc & _)]].
           ++ rewrite <- Hf1 in Hn. set_solver.
           ++ rewrite <- Hf1 in Hc. simpl in Hc. by apply string_cons_neq in Hc.
        -- intros cfg Hcfg. rewrite kept_input_app, Hk.
           destruct (Hvis cfg Hcfg) as [Hv|Hv]; [|right; apply elem_of_app; by left].
           apply elem_of_union in Hv as [Hv|Hv]; [|by left].
           right. set_solver.
    + destruct remaining_str as [|c rest].
      * intros H. destruct (IH _ _ H) as (new & -> & Hlen & Hsub & HF & Hnd & Hvis).
        exists new. repeat split; auto. eapply Hweak; eauto.
      * destruct (match_ rule c) as [[|]|e] eqn:Hm; simpl; [| |done].
        -- intros H. destruct (IH _ _ H) as (new & -> & Hlen & Hsub & HF & Hnd & Hvis).
           exists (new ++ [(dst rule, rest, S step)]).
           assert (Hk : kept_input (String c rest) [(dst rule, rest, S step)] = []).
           { unfold kept_input. rewrite filter_cons_False; [done|].
             simpl. apply string_cons_neq. }
           split; [by rewrite <- app_assoc|].
           split; [rewrite length_app; simpl; lia|].
           split; [done|].
           split; [|split].
           ++ apply Forall_app. split; [eapply Hweak; eauto|].
              constructor; [|constructor]. split; [done|]. right.
              exists c, rule. split; [done|]. split; [by left | done].
           ++ by rewrite kept_input_app, Hk, app_nil_r.
           ++ intros cfg Hcfg. rewrite kept_input_app, Hk, app_nil_r. auto.
        -- intros H. destruct (IH _ _ H) as (new & -> & Hlen & Hsub & HF & Hnd & Hvis).
           exists new. repeat split; auto. eapply Hweak; eauto.
Qed.
End Expand.

(** * The trace records a run *)

Section Invariant.
Context (self : NFA) (text : string).
Implicit Types (path : gmap nat (Z * string)) (s : Search) (f : Frame).

Lemma py_index_elem_of {A} (l : list A) i a : py_index l i = Ok a → a ∈ l.
Proof.
  unfold py_index. destruct (_ && _)%bool; [|done].
  destruct (l !! _) eqn:Hl; [|done]. intros [= ->].
  apply list_elem_of_lookup. eauto.
Qed.

Lemma trace_ok_insert path n step v :
  n < step → trace_ok text path n → trace_ok text (<[step:=v]> path) n.
Proof.
  intros Hlt [H0 Hrun]. split.
  - rewrite lookup_insert_ne by lia. done.
  - intros i Hi. destruct (Hrun i Hi) as (a & b & Ha & Hb & Hs).
    exists a, b. rewrite !lookup_insert_ne by lia. done.
Qed.

Lemma frame_ok_insert path f step v :
  f.2 ≤ step → frame_ok text path f → frame_ok text (<[step:=v]> path) f.
Proof.
  unfold frame_ok. destruct f.2 as [|j]; [done|].
  intros Hle [Hrun (a & Ha & Hs)]. split.
  - apply trace_ok_insert; [lia | done].
  - exists a. rewrite lookup_insert_ne by lia. done.
Qed.

(** Recording the popped frame extends the recorded run to its step. *)
Lemma frame_ok_record path q remaining_str step :
  frame_ok text path (q, remaining_str, step) →
  trace_ok text (<[step:=(q, remaining_str)]> path) step.
Proof.
  unfold frame_ok. simpl. destruct step as [|j].
  - intros [= -> ->]. split; [by rewrite lookup_insert_eq | lia].
  - intros [[H0 Hrun] (a & Ha & Hs)]. split.
    + rewrite lookup_insert_ne by lia. done.
    + intros i Hi. destruct (decide (i = j)) as [->|Hne].
      * exists a, (q, remaining_str).
        rewrite lookup_insert_ne by lia. rewrite lookup_insert_eq. done.
      * destruct (Hrun i ltac:(lia)) as (a' & b' & Ha' & Hb' & Hs').
        exists a', b'. rewrite !lookup_insert_ne by lia. done.
Qed.

Lemma contiguous_insert path k step v :
  contiguous path k → step ≤ k → contiguous (<[step:=v]> path) (k `max` S step).
Proof.
  intros Hk Hle i. rewrite lookup_insert_is_Some, (Hk i).
  destruct (decide (step = i)) as [->|Hne].
  - split; [lia | by left].
  - split; [intros [?|[_ ?]]; [done | lia] | right; split; [done | lia]].
Qed.

Lemma init_inv : search_inv text (init text).
Proof.
  split; simpl.
  - exists 0. split.
    + intros i. rewrite lookup_empty. split; [by intros [? ?] | lia].
    + constructor; [simpl; lia | constructor].
  - repeat constructor.
  - constructor; [done | constructor].
Qed.

Lemma iteration_Continue s s' :
  iteration self s = Ok (Continue s') →
  ∃ q remaining_str step stk rs new,
    stack s = (q, remaining_str, step) :: stk
    ∧ py_index (rules self) q = Ok rs
    ∧ path s' = <[step:=(q, remaining_str)]> (path s)
    ∧ expand (rev rs) remaining_str step stk (visited s) = Ok (new ++ stk, visited s')
    ∧ stack s' = new ++ stk.
Proof.
  unfold iteration. destruct (stack s) as [|[[q remaining_str] step] stk]; [done|].
  destruct (py_index (is_final self) q) as [fin|]; simpl; [|done].
  destruct (fin && is_empty remaining_str)%bool.
  { destruct (backtrace _); simpl; done. }
  destruct (py_index (rules self) q) as [rs|] eqn:Hrs; simpl; [|done].
  destruct (expand _ _ _ _ _) as [[stk' vis']|] eqn:Hex; simpl; [|done].
  intros [= <-]. simpl.
  destruct (expand_spec _ _ _ _ _ _ _ Hex) as (new & -> & _).
  exists q, remaining_str, step, stk, rs, new. done.
Qed.

Lemma iteration_inv s s' :
  search_inv text s → iteration self s = Ok (Continue s') → search_inv text s'.
Proof.
  intros [(k & Hk & Hle) Hsorted Hframes] Hit.
  destruct (iteration_Continue _ _ Hit)
    as (q & remaining_str & step & stk & rs & new & Hst & Hrs & Hpath & Hex & Hst').
  destruct (expand_spec _ _ _ _ _ _ _ Hex) as (new' & Hnew & _ & _ & HF & _).
  apply app_inv_tail in Hnew as <-.
  rewrite Hst in Hle, Hsorted, Hframes.
  apply Forall_cons in Hle as [Hle1 Hle]. simpl in Hle1.
  apply StronglySorted_inv in Hsorted as [Hsorted Htop].
  apply Forall_cons in Hframes as [Htopok Hframes].
  pose proof (frame_ok_record _ _ _ _ Htopok) as Hrec.
  split; rewrite ?Hst', ?Hpath.
  - exists (k `max` S step). split; [by apply contiguous_insert|].
    apply Forall_app. split.
    + eapply Forall_impl; [exact HF|]. intros f [-> _]. lia.
    + eapply Forall_impl; [exact Hle|]. simpl. intros; lia.
  - apply StronglySorted_app. split; [|split; [|done]].
    + intros f g Hf Hg. rewrite Forall_forall in HF, Htop.
      destruct (HF f Hf) as [-> _]. specialize (Htop g Hg). simpl in Htop. lia.
    + clear -HF. induction HF as [|f l [Hf _] HF IH]; constructor; [done|].
      eapply Forall_impl; [exact HF|]. intros g [-> _]. lia.
  - apply Forall_app. split.
    + eapply Forall_impl; [exact HF|]. intros f [Hf Hcase].
      unfold frame_ok. rewrite Hf. split; [done|].
      exists (q, remaining_str). rewrite lookup_insert_eq. split; [done|]. simpl.
      destruct Hcase as [(-> & _) | (c & _ & -> & _)]; [by left | right; by exists c].
    + rewrite Forall_forall in Hframes, Htop |- *. intros g Hg.
      apply frame_ok_insert; [|by apply Hframes].
      specialize (Htop g Hg). simpl in Htop. done.
Qed.

Lemma run_inv n s0 s :
  search_inv text s0 → run n self s0 = Some s → search_inv text s.
Proof.
  revert s0. induction n as [|n IH]; intros s0 Hinv; simpl.
  - by intros [= <-].
  - destruct (iteration self s0) as [[s1|r]|e] eqn:Hit; [|done|done].
    intros Hrun. eapply IH; [|exact Hrun]. by eapply iteration_inv.
Qed.
End Invariant.

(** * Termination *)

Section Lists.
Context {A : Type} (P Q : A → Prop) `{!∀ x, Decision (P x), !∀ x, Decision (Q x)}.

Lemma filter_length_mono (l : list A) :
  (∀ x, x ∈ l → P x → Q x) → length (filter P l) ≤ length (filter Q l).
Proof.
  induction l as [|x l IH]; intros HPQ; [done|].
  rewrite !filter_cons.
  assert (IH' : length (filter P l) ≤ length (filter Q l)).
  { apply IH. intros y Hy. apply HPQ. by right. }
  destruct (decide (P x)) as [HP|HP].
  - rewrite decide_True by (apply HPQ; [by left | done]). simpl.
    apply -> Nat.succ_le_mono. exact IH'.
  - destruct (decide (Q x)); simpl; [|exact IH'].
    apply Nat.le_le_succ_r. exact IH'.
Qed.

Lemma filter_length_lt (l : list A) x :
  (∀ x, x ∈ l → P x → Q x) → x ∈ l → Q x → ¬ P x →
  length (filter P l) < length (filter Q l).
Proof.
  induction l as [|y l IH]; intros HPQ Hx HQ HP; [by apply elem_of_nil in Hx|].
  rewrite !filter_cons.
  assert (Hmono : length (filter P l) ≤ length (filter Q l)).
  { apply filter_length_mono. intros z Hz. apply HPQ. by right. }
  apply elem_of_cons in Hx as [<-|Hx].
  - rewrite decide_False, decide_True by done. simpl.
    apply Nat.lt_succ_r. exact Hmono.
  - assert (IH' : length (filter P l) < length (filter Q l)).
    { apply IH; auto. intros z Hz. apply HPQ. by right. }
    destruct (decide (P y)) as [HPy|HPy].
    + rewrite decide_True by (apply HPQ; [by left | done]). simpl.
      apply -> Nat.succ_lt_mono. exact IH'.
    + destruct (decide (Q y)); simpl; [|exact IH'].
      apply Nat.lt_lt_succ_r. exact IH'.
Qed.
End Lists.

Lemma sum_list_bound (l : list nat) b :
  Forall (λ x, x ≤ b) l → sum_list l ≤ length l * b.
Proof. induction 1; simpl; lia. Qed.

Section Termination.
Context (self : NFA).
Implicit Types (vis : gset (Z * string)) (f : Frame) (s : Search).

Lemma eps_targets_elem rs r :
  rs ∈ rules self → r ∈ rs → type r = EPSILON → dst r ∈ eps_targets self.
Proof.
  intros Hrs Hr Ht. unfold eps_targets.
  apply elem_of_remove_dups, list_elem_of_fmap_2, list_elem_of_filter.
  split; [done|]. apply list_elem_of_In, in_concat. exists rs.
  by rewrite <- !list_elem_of_In.
Qed.

Lemma max_out_ge rs : rs ∈ rules self → length rs ≤ max_out self.
Proof.
  intros Hrs. unfold max_out. apply max_list_elem_of_le.
  by apply list_elem_of_fmap_2.
Qed.

Lemma unmarked_le vis remaining_str :
  unmarked self vis remaining_str ≤ length (eps_targets self).
Proof. apply length_filter. Qed.

Lemma unmarked_mono vis vis' remaining_str :
  vis ⊆ vis' → unmarked self vis' remaining_str ≤ unmarked self vis remaining_str.
Proof.
  intros Hsub. apply filter_length_mono. intros d _ Hd Hin. apply Hd. auto.
Qed.

Lemma unmarked_lt vis vis' remaining_str d :
  vis ⊆ vis' → d ∈ eps_targets self →
  (d, remaining_str) ∉ vis → (d, remaining_str) ∈ vis' →
  unmarked self vis' remaining_str < unmarked self vis remaining_str.
Proof.
  intros Hsub Hd Hn Hi. apply (filter_length_lt _ _ _ d); auto.
Qed.

Lemma rank_mono vis vis' remaining_str :
  vis ⊆ vis' → rank self vis' remaining_str ≤ rank self vis remaining_str.
Proof. intros Hsub. unfold rank. pose proof (unmarked_mono _ _ remaining_str Hsub). lia. Qed.

Lemma pushed_rank rs remaining_str step vis vis' f :
  rs ∈ rules self → vis ⊆ vis' →
  pushed_ok (rev rs) remaining_str step vis vis' f →
  rank self vis' f.1.2 < rank self vis remaining_str.
Proof.
  intros Hrs Hsub [_ [(Hr & Hn & Hi & r & Hin & Ht & Hd) | (c & _ & -> & _)]].
  - rewrite Hr. unfold rank.
    enough (unmarked self vis' remaining_str < unmarked self vis remaining_str) by lia.
    apply (unmarked_lt _ _ _ (f.1.1)); auto.
    + rewrite <- Hd. eapply eps_targets_elem; eauto.
      apply list_elem_of_In, in_rev. by apply list_elem_of_In.
    + rewrite <- Hr. by destruct f.1.
    + rewrite <- Hr. by destruct f.1.
  - unfold rank. simpl.
    pose proof (unmarked_le vis' f.1.2). lia.
Qed.

Lemma weight_pos vis f : 0 < weight self vis f.
Proof. unfold weight. apply Nat.neq_0_lt_0, Nat.pow_nonzero. lia. Qed.

Lemma weight_mono vis vis' f :
  vis ⊆ vis' → weight self vis' f ≤ weight self vis f.
Proof.
  intros Hsub. unfold weight. apply Nat.pow_le_mono_r; [lia|]. by apply rank_mono.
Qed.

Lemma measure_mono vis vis' stk :
  vis ⊆ vis' → measure self stk vis' ≤ measure self stk vis.
Proof.
  intros Hsub. unfold measure. induction stk as [|f stk IH]; simpl; [done|].
  apply Nat.add_le_mono; [by apply weight_mono | exact IH].
Qed.

Lemma measure_app stk1 stk2 vis :
  measure self (stk1 ++ stk2) vis = measure self stk1 vis + measure self stk2 vis.
Proof. unfold measure. by rewrite fmap_app, sum_list_with_app. Qed.

Lemma measure_pushed rs remaining_str step vis vis' new :
  rs ∈ rules self → vis ⊆ vis' → length new ≤ length rs →
  Forall (pushed_ok (rev rs) remaining_str step vis vis') new →
  measure self new vis' < S (max_out self) ^ rank self vis remaining_str.
Proof.
  intros Hrs Hsub Hlen HF.
  destruct new as [|f0 new0] eqn:Hnew.
  { unfold measure. simpl. apply Nat.neq_0_lt_0, Nat.pow_nonzero. lia. }
  rewrite <- Hnew in *.
  assert (Hr0 : ∃ r1, rank self vis remaining_str = S r1).
  { assert (Hf0 : pushed_ok (rev rs) remaining_str step vis vis' f0).
    { rewrite Hnew in HF. by apply Forall_cons in HF as [? _]. }
    pose proof (pushed_rank _ _ _ _ _ _ Hrs Hsub Hf0).
    destruct (rank self vis remaining_str) as [|r1]; [lia | eauto]. }
  destruct Hr0 as [r1 Hr1]. rewrite Hr1.
  assert (Hb : measure self new vis' ≤ length new * S (max_out self) ^ r1).
  { unfold measure. etrans; [apply (sum_list_bound _ (S (max_out self) ^ r1))|].
    - apply Forall_fmap. eapply Forall_impl; [exact HF|]. intros f Hf. simpl.
      unfold weight. apply Nat.pow_le_mono_r; [lia|].
      pose proof (pushed_rank _ _ _ _ _ _ Hrs Hsub Hf). lia.
    - by rewrite length_fmap. }
  pose proof (max_out_ge rs Hrs) as Hmax.
  assert (0 < S (max_out self) ^ r1) by (apply Nat.neq_0_lt_0, Nat.pow_nonzero; lia).
  rewrite Nat.pow_succ_r by lia. nia.
Qed.

Lemma iteration_measure s s' :
  iteration self s = Ok (Continue s') →
  measure self (stack s') (visited s') < measure self (stack s) (visited s).
Proof.
  intros Hit.
  destruct (iteration_Continue _ _ _ Hit)
    as (q & remaining_str & step & stk & rs & new & Hst & Hrs & Hpath & Hex & Hst').
  destruct (expand_spec _ _ _ _ _ _ _ Hex) as (new' & Hnew & Hlen & Hsub & HF & _).
  apply app_inv_tail in Hnew as <-. rewrite length_rev in Hlen.
  apply py_index_elem_of in Hrs.
  rewrite Hst, Hst', measure_app.
  pose proof (measure_pushed _ _ _ _ _ _ Hrs Hsub Hlen HF) as Hnew.
  pose proof (measure_mono _ _ stk Hsub) as Hold.
  change (measure self ((q, remaining_str, step) :: stk) (visited s))
    with (weight self (visited s) (q, remaining_str, step) + measure self stk (visited s)).
  unfold weight at 1. simpl. lia.
Qed.

Lemma exec_loop_measure fuel s :
  measure self (stack s) (visited s) < fuel → ∃ r, exec_loop fuel self s = Some r.
Proof.
  revert s. induction fuel as [|fuel IH]; intros s Hlt; [lia|]. simpl.
  destruct (iteration self s) as [[s1|r]|e] eqn:Hit; eauto.
  apply IH. pose proof (iteration_measure _ _ Hit). lia.
Qed.

Lemma exec_bound_nat text :
  Pos.to_nat (exec_bound self text)
  = S (S (max_out self)
       ^ (String.length text * S (length (eps_targets self))
          + length (eps_targets self))).
Proof.
  unfold exec_bound.
  change (Pos.to_nat (N.succ_pos ?x)) with (N.to_nat (N.pos (N.succ_pos x))).
  rewrite N.succ_pos_spec, N2Nat.inj_succ, <- Nat2N.inj_pow, Nat2N.id. done.
Qed.

Lemma exec_loop_bound text :
  ∃ r, exec_loop (Pos.to_nat (exec_bound self text)) self (init text) = Some r.
Proof.
  apply exec_loop_measure. rewrite exec_bound_nat. unfold measure, init. simpl.
  unfold weight. simpl. rewrite Nat.add_0_r. apply Nat.lt_succ_r.
  apply Nat.pow_le_mono_r; [lia|]. unfold rank.
  pose proof (unmarked_le ∅ text). lia.
Qed.

Lemma exec_loop_mono fuel fuel' s r :
  exec_loop fuel self s = Some r → fuel ≤ fuel' → exec_loop fuel' self s = Some r.
Proof.
  revert fuel' s. induction fuel as [|fuel IH]; intros fuel' s; [done|].
  intros H Hle. destruct fuel' as [|fuel']; [lia|]. simpl in *.
  destruct (iteration self s) as [[s1|r1]|e]; auto. apply IH; [done | lia].
Qed.

Lemma exec_loop_agree fuel fuel' s r r' :
  exec_loop fuel self s = Some r → exec_loop fuel' self s = Some r' → r = r'.
Proof.
  intros H H'. destruct (Nat.le_ge_cases fuel fuel') as [Hle|Hle].
  - rewrite (exec_loop_mono _ _ _ _ H Hle) in H'. congruence.
  - rewrite (exec_loop_mono _ _ _ _ H' Hle) in H. congruence.
Qed.

Lemma run_add n m s s' :
  run n self s = Some s' → run (n + m) self s = run m self s'.
Proof.
  revert s. induction n as [|n IH]; intros s; simpl; [by intros [= ->]|].
  destruct (iteration self s) as [[s1|o]|e]; [apply IH | done | done].
Qed.

Lemma exec_loop_run n m s s' :
  run n self s = Some s' → exec_loop (n + m) self s = exec_loop m self s'.
Proof.
  revert s. induction n as [|n IH]; intros s; simpl; [by intros [= ->]|].
  destruct (iteration self s) as [[s1|o]|e]; [apply IH | done | done].
Qed.

Lemma run_exec_loop n s s' : run n self s = Some s' → exec_loop n self s = None.
Proof.
  revert s. induction n as [|n IH]; intros s; simpl; [done|].
  destruct (iteration self s) as [[s1|o]|e]; [apply IH | done | done].
Qed.

Lemma exec_cut_spec p s : cut_spec self (Pos.to_nat p) s (exec_cut p self s).
Proof.
  assert (Htwice : ∀ p' s0,
    (∀ s, cut_spec self (Pos.to_nat p') s (exec_cut p' self s)) →
    cut_spec self (Pos.to_nat p' + Pos.to_nat p') s0
      (match exec_cut p' self s0 with
       | inl s1 => exec_cut p' self s1
       | inr r => inr r
       end)).
  { intros p' s0 IH. pose proof (IH s0) as H0.
    destruct (exec_cut p' self s0) as [s1|r]; simpl in H0.
    - pose proof (IH s1) as H1.
      destruct (exec_cut p' self s1) as [s2|r]; simpl in *.
      + by rewrite (run_add _ _ _ _ H0).
      + by rewrite (exec_loop_run _ _ _ _ H0).
    - simpl. apply (exec_loop_mono _ _ _ _ H0). lia. }
  revert s. induction p as [p IH|p IH|]; intros s.
  - rewrite Pos2Nat.inj_xI.
    replace (2 * Pos.to_nat p) with (Pos.to_nat p + Pos.to_nat p) by lia.
    simpl. destruct (iteration self s) as [[s'|o]|e] eqn:Hit.
    + specialize (Htwice p s' IH).
      destruct (match exec_cut p self s' with inl _ => _ | inr _ => _ end);
        simpl in *; by rewrite Hit.
    + simpl. by rewrite Hit.
    + simpl. by rewrite Hit.
  - rewrite Pos2Nat.inj_xO.
    replace (2 * Pos.to_nat p) with (Pos.to_nat p + Pos.to_nat p) by lia.
    by apply Htwice.
  - change (Pos.to_nat 1) with 1. simpl.
    destruct (iteration self s) as [[s'|o]|e] eqn:Hit; simpl; by rewrite Hit.
Qed.

Lemma exec_loop_of_exec text :
  exec_loop (Pos.to_nat (exec_bound self text)) self (init text)
  = Some (exec self text).
Proof.
  unfold exec. destruct (exec_loop_bound text) as [r Hr].
  pose proof (exec_cut_spec (exec_bound self text) (init text)) as Hc.
  destruct (exec_cut _ _ _) as [s'|r']; simpl in Hc; [|done].
  apply run_exec_loop in Hc. congruence.
Qed.

Lemma exec_of_loop fuel text r :
  exec_loop fuel self (init text) = Some r → exec self text = r.
Proof.
  intros H. symmetry. eapply exec_loop_agree; [exact H | apply exec_loop_of_exec].
Qed.

(** The loop has ended when the cut of [exec] is reached. *)
Lemma exec_cut_total text :
  exec_cut (exec_bound self text) self (init text) = inr (exec self text).
Proof.
  pose proof (exec_cut_spec (exec_bound self text) (init text)) as Hc.
  pose proof (exec_loop_of_exec text) as Hl.
  destruct (exec_cut _ _ _) as [s'|r'] eqn:Hcut; simpl in Hc.
  - apply run_exec_loop in Hc. congruence.
  - congruence.
Qed.
End Termination.

(** * Where the loop ends *)


Section Exec.
Context (self : NFA).
Implicit Types (s : Search) (p : Path).

Lemma iteration_Return_Some s p :
  iteration self s = Ok (Return (Some p)) →
  ∃ q step stk,
    stack s = (q, EmptyString, step) :: stk
    ∧ py_index (is_final self) q = Ok true
    ∧ backtrace (<[step:=(q, EmptyString)]> (path s)) = Ok p.
Proof.
  unfold iteration. destruct (stack s) as [|[[q remaining_str] step] stk]; [done|].
  destruct (py_index (is_final self) q) as [fin|] eqn:Hfin; simpl; [|done].
  destruct fin, remaining_str as [|c rest]; simpl.
  - destruct (backtrace _) as [p'|] eqn:Hb; simpl; [|done].
    intros [= <-]. by exists q, step, stk.
  - destruct (py_index (rules self) q); simpl; [|done].
    by destruct (expand _ _ _ _ _) as [[? ?]|].
  - destruct (py_index (rules self) q); simpl; [|done].
    by destruct (expand _ _ _ _ _) as [[? ?]|].
  - destruct (py_index (rules self) q); simpl; [|done].
    by destruct (expand _ _ _ _ _) as [[? ?]|].
Qed.

(** The turn at which the loop ended. *)
Lemma exec_loop_inv fuel s r :
  exec_loop fuel self s = Some r →
  ∃ n sN, n < fuel ∧ run n self s = Some sN
    ∧ match iteration self sN with
      | Raise e => r = Raise e
      | Ok (Return o) => r = Ok o
      | Ok (Continue _) => False
      end.
Proof.
  revert s. induction fuel as [|fuel IH]; intros s; [done|]. simpl.
  destruct (iteration self s) as [[s1|o]|e] eqn:Hit.
  - intros H. destruct (IH _ H) as (n & sN & Hn & Hrun & Hend).
    exists (S n), sN. split; [lia|]. simpl. rewrite Hit. done.
  - intros [= <-]. exists 0, s. split; [lia|]. simpl. rewrite Hit. done.
  - intros [= <-]. exists 0, s. split; [lia|]. simpl. rewrite Hit. done.
Qed.

Lemma run_last n s0 s :
  run (S n) self s0 = Some s →
  ∃ s1, run n self s0 = Some s1 ∧ iteration self s1 = Ok (Continue s).
Proof.
  revert s0. induction n as [|n IH]; intros s0.
  - simpl. destruct (iteration self s0) as [[s1|o]|e] eqn:Hit; [|done|done].
    intros [= <-]. by exists s0.
  - intros H. change (run (S (S n)) self s0) with
      (match iteration self s0 with
       | Ok (Continue s') => run (S n) self s'
       | _ => None
       end) in H.
    destruct (iteration self s0) as [[s1|o]|e] eqn:Hit; [|done|done].
    destruct (IH _ H) as (s2 & Hrun & Hlast). exists s2. split; [|done].
    simpl. by rewrite Hit.
Qed.

Lemma exec_Some_inv text p :
  exec self text = Ok (Some p) →
  ∃ n s q step stk,
    run n self (init text) = Some s
    ∧ stack s = (q, EmptyString, step) :: stk
    ∧ py_index (is_final self) q = Ok true
    ∧ backtrace (<[step:=(q, EmptyString)]> (path s)) = Ok p.
Proof.
  intros H. pose proof (exec_loop_of_exec self text) as Hl. rewrite H in Hl.
  apply exec_loop_inv in Hl as (n & s & _ & Hrun & Hend).
  destruct (iteration self s) as [[s1|o]|e] eqn:Hit; [done| |done].
  injection Hend as <-. apply iteration_Return_Some in Hit as (q & step & stk & ?).
  exists n, s, q, step, stk. done.
Qed.
End Exec.


(** * Keys of the trace and the log of epsilon pushes *)

Section Keys.
Implicit Types (path : gmap nat (Z * string)).

Lemma contiguous_get path k i : contiguous path k → i < k → ∃ v, py_get path i = Ok v.
Proof.
  intros Hk Hi. apply Hk in Hi as [v Hv]. exists v. unfold py_get. by rewrite Hv.
Qed.

Lemma contiguous_max_key path k : contiguous path (S k) → max_key path = Ok k.
Proof.
  intros Hk. unfold max_key.
  assert (Hin : ∀ i, i ∈ elements (dom path) ↔ i < S k).
  { intros i. rewrite elem_of_elements, elem_of_dom. apply Hk. }
  destruct (elements (dom path)) as [|k0 ks] eqn:Hel.
  { exfalso. apply (not_elem_of_nil 0), Hin. lia. }
  rewrite <- Hel in *. f_equal.
  assert (Hne : elements (dom path) ≠ []) by (by rewrite Hel).
  apply max_list_elem_of, Hin in Hne.
  assert (Hk' : k ∈ elements (dom path)) by (apply Hin; lia).
  apply max_list_elem_of_le in Hk'. lia.
Qed.

Lemma backtrace_body_no_KeyError path k j :
  contiguous path k → S j < k → backtrace_body path (S j) ≠ Raise KeyError.
Proof.
  intros Hk Hj. unfold backtrace_body. simpl. rewrite Nat.sub_0_r.
  destruct (contiguous_get path k (S j) Hk Hj) as [cur ->].
  destruct (contiguous_get path k j Hk ltac:(lia)) as [prev ->]. simpl.
  destruct (String.eqb _ _); [done|]. by destruct prev.2.
Qed.

Lemma backtrace_loop_no_KeyError path k i sts cns :
  contiguous path k → i < k → backtrace_loop path i sts cns ≠ Raise KeyError.
Proof.
  intros Hk. revert sts cns. induction i as [|j IH]; intros sts cns Hi; [done|].
  simpl. pose proof (backtrace_body_no_KeyError path k j Hk Hi) as Hb.
  destruct (backtrace_body path (S j)) as [[q c]|e]; simpl.
  - apply IH. lia.
  - congruence.
Qed.

Lemma backtrace_no_KeyError path k :
  contiguous path (S k) → backtrace path ≠ Raise KeyError.
Proof.
  intros Hk. unfold backtrace. rewrite (contiguous_max_key path k Hk). simpl.
  pose proof (backtrace_loop_no_KeyError path (S k) k [] [] Hk ltac:(lia)) as Hl.
  destruct (backtrace_loop path k [] []) as [[sts cns]|e]; simpl; congruence.
Qed.
End Keys.


Section Fired.
Implicit Types (rs : list Rule) (stk : list Frame) (vis : gset (Z * string)).

Lemma expand_app rs1 rs2 remaining_str step stk vis :
  expand (rs1 ++ rs2) remaining_str step stk vis
  = res ← expand rs1 remaining_str step stk vis;
    expand rs2 remaining_str step res.1 res.2.
Proof.
  revert stk vis. induction rs1 as [|rule rs1 IH]; intros stk vis; simpl; [done|].
  destruct (decide (type rule = Unset)); [done|].
  destruct (decide (type rule = EPSILON)).
  - destruct (decide _); apply IH.
  - destruct remaining_str as [|c rest]; [apply IH|].
    destruct (match_ rule c) as [[|]|e]; simpl; [apply IH | apply IH | done].
Qed.

Lemma elem_of_eps_configs remaining_str rs cfg :
  cfg ∈ eps_configs remaining_str rs
  ↔ ∃ r, r ∈ rs ∧ type r = EPSILON ∧ cfg = (dst r, remaining_str).
Proof.
  unfold eps_configs. rewrite list_elem_of_fmap. split.
  - intros (r & -> & [Ht Hr]%list_elem_of_filter). eauto.
  - intros (r & Hr & Ht & ->). exists r. split; [done|].
    by apply list_elem_of_filter.
Qed.

Lemma eps_configs_cons_eps remaining_str r rs :
  type r = EPSILON →
  eps_configs remaining_str (r :: rs)
  = (dst r, remaining_str) :: eps_configs remaining_str rs.
Proof. intros Ht. unfold eps_configs. by rewrite filter_cons_True. Qed.

Lemma eps_configs_cons_other remaining_str r rs :
  type r ≠ EPSILON →
  eps_configs remaining_str (r :: rs) = eps_configs remaining_str rs.
Proof. intros Ht. unfold eps_configs. by rewrite filter_cons_False. Qed.

Lemma fires_epsilon vis remaining_str later r :
  type r = EPSILON →
  fires vis remaining_str later r = true
  ↔ ((dst r, remaining_str) ∉ vis)
    ∧ (dst r, remaining_str) ∉ eps_configs remaining_str later.
Proof.
  intros Ht. unfold fires. rewrite decide_True by done.
  rewrite bool_decide_eq_true, Forall_forall, elem_of_eps_configs. split.
  - intros [Hv Hl]. split; [done|]. intros (r' & Hr' & Ht' & [= Hd]).
    by apply (Hl r' Hr').
  - intros [Hv Hl]. split; [done|]. intros r' Hr' [Ht' Hd]. apply Hl.
    exists r'. by rewrite Hd.
Qed.

Lemma fires_other vis c rest later r :
  type r ≠ EPSILON →
  fires vis (String c rest) later r = true ↔ match_ r c = Ok true.
Proof.
  intros Ht. unfold fires. rewrite decide_False by done.
  destruct (match_ r c) as [[|]|e]; split; congruence.
Qed.

Lemma fires_empty vis later r :
  type r ≠ EPSILON → fires vis EmptyString later r = false.
Proof. intros Ht. unfold fires. by rewrite decide_False. Qed.

Lemma child_epsilon remaining_str step r :
  type r = EPSILON → child remaining_str step r = (dst r, remaining_str, S step).
Proof. intros Ht. unfold child. by rewrite decide_True. Qed.

Lemma child_other c rest step r :
  type r ≠ EPSILON → child (String c rest) step r = (dst r, rest, S step).
Proof. intros Ht. unfold child. by rewrite decide_False. Qed.

(** The loop over the reversed rules pushes the frames of the rules that
    fire, the first declared on top, and marks the targets of all the
    epsilon rules. *)
Lemma expand_fired rs remaining_str step stk vis stk' vis' :
  expand (rev rs) remaining_str step stk vis = Ok (stk', vis') →
  stk' = (child remaining_str step <$> fired vis remaining_str rs) ++ stk
  ∧ vis' = list_to_set (eps_configs remaining_str rs) ∪ vis.
Proof.
  revert stk' vis'. induction rs as [|r later IH]; intros stk' vis'; simpl.
  - intros [= <- <-]. split; [done|]. unfold eps_configs. simpl.
    by rewrite (left_id_L ∅ (∪)).
  - rewrite expand_app.
    destruct (expand (rev later) remaining_str step stk vis) as [[stk1 vis1]|e] eqn:H1;
      simpl; [|done].
    destruct (IH _ _ eq_refl) as [-> ->].
    destruct (decide (type r = Unset)) as [|Hset]; [done|].
    destruct (decide (type r = EPSILON)) as [Heps|Hne].
    + rewrite (eps_configs_cons_eps _ _ _ Heps).
      destruct (decide _) as [Hin|Hnin].
      * intros [= <- <-].
        assert (Hf : fires vis remaining_str later r = false).
        { apply not_true_is_false. rewrite (fires_epsilon _ _ _ _ Heps).
          intros [Hv Hl]. apply elem_of_union in Hin as [Hin|Hin]; [|done].
          by apply elem_of_list_to_set in Hin. }
        rewrite Hf. split; [done|]. rewrite list_to_set_cons.
        rewrite <- (assoc_L (∪)). symmetry. by apply subseteq_union_1_L, singleton_subseteq_l.
      * intros [= <- <-].
        assert (Hf : fires vis remaining_str later r = true).
        { apply (fires_epsilon _ _ _ _ Heps). split.
          - intros Hv. apply Hnin. apply elem_of_union. by right.
          - intros Hl. apply Hnin. apply elem_of_union. left.
            by apply elem_of_list_to_set. }
        rewrite Hf, fmap_cons, (child_epsilon _ _ _ Heps). split; [done|].
        rewrite list_to_set_cons. by rewrite (assoc_L (∪)).
    + rewrite (eps_configs_cons_other _ _ _ Hne).
      destruct remaining_str as [|c rest].
      * intros [= <- <-]. by rewrite (fires_empty _ _ _ Hne).
      * destruct (match_ r c) as [[|]|e] eqn:Hm; simpl; [| |done].
        -- intros [= <- <-].
           assert (Hf : fires vis (String c rest) later r = true)
             by (by apply fires_other).
           by rewrite Hf, fmap_cons, (child_other _ _ _ _ Hne).
        -- intros [= <- <-].
           assert (Hf : fires vis (String c rest) later r = false).
           { apply not_true_is_false. rewrite (fires_other _ _ _ _ _ Hne). congruence. }
           by rewrite Hf.
Qed.




End Fired.

Section Log.
Context (self : NFA).
Implicit Types (s : Search).

(** One turn that goes on, in terms of the rules of the popped state. *)
Lemma iteration_fired s s' :
  iteration self s = Ok (Continue s') →
  ∃ q remaining_str step stk rs,
    stack s = (q, remaining_str, step) :: stk
    ∧ py_index (rules self) q = Ok rs
    ∧ stack s' = (child remaining_str step <$> fired (visited s) remaining_str rs) ++ stk
    ∧ visited s' = list_to_set (eps_configs remaining_str rs) ∪ visited s
    ∧ path s' = <[step:=(q, remaining_str)]> (path s).
Proof.
  intros Hit.
  destruct (iteration_Continue _ _ _ Hit)
    as (q & remaining_str & step & stk & rs & new & Hst & Hrs & Hpath & Hex & Hst').
  destruct (expand_fired _ _ _ _ _ _ _ Hex) as [Hnew Hvis].
  exists q, remaining_str, step, stk, rs. by rewrite Hst', Hnew.
Qed.




End Log.


(** * Rejection is sound *)


Lemma elem_of_rev {A} (l : list A) x : x ∈ rev l ↔ x ∈ l.
Proof. rewrite !list_elem_of_In. symmetry. apply in_rev. Qed.

Section Complete.
Context (self : NFA) (text : string).
Implicit Types (s : Search) (D : config → Prop).

Lemma expand_complete rs remaining_str step stk vis stk' vis' :
  expand rs remaining_str step stk vis = Ok (stk', vis') →
  (∀ r, r ∈ rs → type r = EPSILON → (dst r, remaining_str) ∈ vis')
  ∧ (∀ r c rest, r ∈ rs → type r ≠ EPSILON → remaining_str = String c rest →
       match_ r c = Ok true → (dst r, rest, S step) ∈ stk').
Proof.
  revert stk vis. induction rs as [|rule rs IH]; intros stk vis; simpl.
  - intros _. split; intros r; [|intros c rest]; by intros ?%elem_of_nil.
  - intros H. destruct (decide (type rule = Unset)) as [|Hset]; [done|].
    assert (Hrest : ∃ stk1 vis1,
      expand rs remaining_str step stk1 vis1 = Ok (stk', vis')
      ∧ (type rule = EPSILON → (dst rule, remaining_str) ∈ vis1)
      ∧ (∀ c rest, type rule ≠ EPSILON → remaining_str = String c rest →
           match_ rule c = Ok true → (dst rule, rest, S step) ∈ stk1)).
    { destruct (decide (type rule = EPSILON)) as [Heps|Hne].
      - destruct (decide ((dst rule, remaining_str) ∈ vis)) as [Hin|Hnin].
        + exists stk, vis. split; [done|]. split; [done|]. by intros c rest ?.
        + eexists _, _. split; [exact H|].
          split; [intros _; apply elem_of_union; left; by apply elem_of_singleton|].
          by intros c rest ?.
      - destruct remaining_str as [|c rest].
        + exists stk, vis. split; [done|]. split; [done|]. by intros c rest _ ?.
        + destruct (match_ rule c) as [[|]|e] eqn:Hm; simpl in H; [| |done].
          * eexists _, _. split; [exact H|]. split; [done|].
            intros c' rest' _ [= <- <-] _. by left.
          * exists stk, vis. split; [done|]. split; [done|].
            intros c' rest' _ [= <- <-] ?. congruence. }
    destruct Hrest as (stk1 & vis1 & Hex & Heps & Hchar).
    destruct (IH _ _ Hex) as [IHe IHc].
    destruct (expand_spec _ _ _ _ _ _ _ Hex) as (new & -> & _ & Hsub & _).
    split.
    + intros r [->|Hr]%elem_of_cons Ht; [|by apply IHe]. apply Hsub. by apply Heps.
    + intros r c rest [->|Hr]%elem_of_cons Ht Hrem Hm; [|by eapply IHc].
      apply elem_of_app. right. by eapply Hchar.
Qed.

Lemma closed_init : closed self text (init text) (λ _, False).
Proof.
  split; simpl; try done. right. by left.
Qed.

Lemma iteration_not_accepting s s' q remaining_str step stk :
  iteration self s = Ok (Continue s') → stack s = (q, remaining_str, step) :: stk →
  ¬ accepting self (q, remaining_str).
Proof.
  unfold iteration. intros Hit Hst. rewrite Hst in Hit.
  intros [Hfin Hrem]. simpl in Hfin, Hrem. rewrite Hfin, Hrem in Hit. simpl in Hit.
  by destruct (backtrace _).
Qed.

Lemma closed_step s s' D :
  closed self text s D → iteration self s = Ok (Continue s') →
  ∃ D', closed self text s' D'.
Proof.
  intros [Hinit Hrej Hmove Hvis] Hit.
  destruct (iteration_Continue _ _ _ Hit)
    as (q & remaining_str & step & stk & rs & new & Hst & Hrs & Hpath & Hex & Hst').
  destruct (expand_spec _ _ _ _ _ _ _ Hex) as (new' & Hnew & _ & Hsub & HF & _ & Hvis').
  apply app_inv_tail in Hnew as <-.
  destruct (expand_complete _ _ _ _ _ _ _ Hex) as [Heps Hchar].
  pose proof (iteration_not_accepting _ _ _ _ _ _ Hit Hst) as Hnacc.
  rewrite Hst in Hinit, Hmove, Hvis. rewrite fmap_cons in Hinit, Hmove, Hvis.
  simpl in Hinit, Hmove, Hvis.
  assert (Hold : ∀ c, D c ∨ c ∈ (q, remaining_str) :: (fst <$> stk) →
                      (D c ∨ c = (q, remaining_str)) ∨ c ∈ fst <$> stack s').
  { intros c [Hc | [->|Hc]%elem_of_cons]; [by left; left | by left; right |].
    right. rewrite Hst', fmap_app. apply elem_of_app. by right. }
  assert (Hvisited : ∀ c, c ∈ visited s' →
                      (D c ∨ c = (q, remaining_str)) ∨ c ∈ fst <$> stack s').
  { intros c Hc. destruct (Hvis' c Hc) as [Hv|Hv]; [by apply Hold, Hvis|].
    right. rewrite Hst', fmap_app. apply elem_of_app. left.
    unfold kept_input in Hv. apply list_elem_of_fmap in Hv as (f & -> & Hf).
    apply list_elem_of_filter in Hf as [_ Hf]. by apply list_elem_of_fmap_2. }
  exists (λ c, D c ∨ c = (q, remaining_str)). split.
  - by apply Hold.
  - intros c [Hc | ->]; [by apply Hrej | done].
  - intros c c' [Hc | ->] Hmv; [by eapply Hold, Hmove|].
    inversion Hmv as [q0 rem0 rs0 r Hrs0 Hr Ht | q0 ch rest rs0 r Hrs0 Hr Ht Hm]; subst.
    + assert (rs0 = rs) as -> by congruence.
      apply Hvisited, Heps; [|done]. by apply elem_of_rev.
    + assert (rs0 = rs) as -> by congruence.
      right. rewrite Hst'.
      apply (list_elem_of_fmap_2 fst _ (dst r, rest, S step)).
      eapply Hchar; eauto. by apply elem_of_rev.
  - exact Hvisited.
Qed.

Lemma run_closed n s0 s D :
  closed self text s0 D → run n self s0 = Some s → ∃ D', closed self text s D'.
Proof.
  revert s0 D. induction n as [|n IH]; intros s0 D Hcl; simpl.
  - intros [= <-]. eauto.
  - destruct (iteration self s0) as [[s1|o]|e] eqn:Hit; [|done|done].
    destruct (closed_step _ _ _ Hcl Hit) as [D1 Hcl1]. by apply IH with D1.
Qed.

Lemma closed_empty_rejects s D :
  closed self text s D → stack s = [] → ¬ accepting_run self text.
Proof.
  intros [Hinit Hrej Hmove _] Hst (cfg & Hreach & Hacc).
  rewrite Hst in Hinit, Hmove. simpl in Hinit, Hmove.
  destruct Hinit as [Hinit | Hinit]; [|by apply elem_of_nil in Hinit].
  apply (Hrej cfg); [|done]. clear Hacc.
  induction Hreach as [c | c c' c'' Hmv _ IH]; [done|].
  apply IH. destruct (Hmove c c' Hinit Hmv) as [?|Hin]; [done|].
  by apply elem_of_nil in Hin.
Qed.

Lemma iteration_Return_None s :
  iteration self s = Ok (Return None) → stack s = [].
Proof.
  unfold iteration. destruct (stack s) as [|[[q remaining_str] step] stk]; [done|].
  destruct (py_index (is_final self) q) as [fin|]; simpl; [|done].
  destruct (fin && is_empty remaining_str)%bool.
  - by destruct (backtrace _).
  - destruct (py_index (rules self) q); simpl; [|done].
    by destruct (expand _ _ _ _ _) as [[? ?]|].
Qed.

(** A rejection is justified: nothing accepting is reachable. *)
Theorem exec_None_sound : exec self text = Ok None → ¬ accepting_run self text.
Proof.
  intros H. pose proof (exec_loop_of_exec self text) as Hl. rewrite H in Hl.
  apply exec_loop_inv in Hl as (n & s & _ & Hrun & Hend).
  destruct (iteration self s) as [[s1|o]|e] eqn:Hit; [done| |done].
  injection Hend as <-. apply iteration_Return_None in Hit.
  destruct (run_closed _ _ _ _ closed_init Hrun) as [D Hcl].
  by eapply closed_empty_rejects.
Qed.
End Complete.

(** * Well-formed automata *)

Section Reach.
Context (self : NFA) (text : string).
Implicit Types (s : Search).


Lemma init_reach : Forall (λ f : Frame, reachable self text f.1) (stack (init text)).
Proof. constructor; [apply rtc_refl | constructor]. Qed.

Lemma iteration_reach s s' :
  Forall (λ f : Frame, reachable self text f.1) (stack s) →
  iteration self s = Ok (Continue s') →
  Forall (λ f : Frame, reachable self text f.1) (stack s').
Proof.
  intros Hall Hit.
  destruct (iteration_Continue _ _ _ Hit)
    as (q & remaining_str & step & stk & rs & new & Hst & Hrs & Hpath & Hex & Hst').
  destruct (expand_spec _ _ _ _ _ _ _ Hex) as (new' & Hnew & _ & _ & HF & _).
  apply app_inv_tail in Hnew as <-.
  rewrite Hst in Hall. apply Forall_cons in Hall as [Htop Hall]. simpl in Htop.
  rewrite Hst'. apply Forall_app. split; [|done].
  eapply Forall_impl; [exact HF|]. intros [[q' rem'] step'] [_ Hcase]. simpl in *.
  eapply rtc_r; [exact Htop|].
  destruct Hcase as [(-> & _ & _ & r & Hr & Ht & <-) | (c & r & -> & Hr & Ht & Hm & <-)].
  - eapply move_epsilon; eauto. by apply elem_of_rev.
  - eapply move_char; eauto. by apply elem_of_rev.
Qed.

Lemma run_reach n s0 s :
  Forall (λ f : Frame, reachable self text f.1) (stack s0) → run n self s0 = Some s →
  Forall (λ f : Frame, reachable self text f.1) (stack s).
Proof.
  revert s0. induction n as [|n IH]; intros s0 Hall; simpl.
  - by intros [= <-].
  - destruct (iteration self s0) as [[s1|o]|e] eqn:Hit; [|done|done].
    apply IH. by eapply iteration_reach.
Qed.
End Reach.

Section WellFormed.
Context (self : NFA) (Hwf : well_formed self) (text : string).

Lemma py_index_in_range {A} (l : list A) (i : Z) :
  (0 <= i < Z.of_nat (length l))%Z → ∃ a, py_index l i = Ok a.
Proof.
  intros Hi. unfold py_index.
  destruct (i <? 0)%Z eqn:Hneg; [apply Z.ltb_lt in Hneg; lia|].
  destruct (0 <=? i)%Z eqn:H0; [|apply Z.leb_gt in H0; lia].
  destruct (i <? Z.of_nat (length l))%Z eqn:H1; [|apply Z.ltb_ge in H1; lia].
  simpl. destruct (l !! Z.to_nat i) as [a|] eqn:Hl; [eauto|].
  apply lookup_ge_None in Hl. lia.
Qed.

Lemma reachable_in_range cfg :
  reachable self text cfg → (0 <= cfg.1 < num_states self)%Z.
Proof.
  revert cfg. unfold reachable. apply rtc_ind_r.
  - simpl. pose proof (wf_states _ Hwf). lia.
  - intros c c' _ Hmv _.
    inversion Hmv as [q rem rs r Hrs Hin Ht | q ch rest rs r Hrs Hin Ht Hm]; subst; simpl;
      apply py_index_elem_of in Hrs; by eapply wf_dst.
Qed.

Lemma match_total rs r c :
  rs ∈ rules self → r ∈ rs → type r ≠ EPSILON → ∃ b, match_ r c = Ok b.
Proof.
  intros Hrs Hr Ht. destruct (wf_type _ Hwf rs r Hrs Hr) as [t Hty].
  destruct t; [| | |done].
  - rewrite match_normal_ok by done. eauto.
  - destruct (wf_range _ Hwf rs r Hrs Hr Hty). by apply match_range_ok.
  - apply match_special_known; [done|]. by eapply wf_tag.
Qed.

Lemma expand_total rs remaining_str step stk vis :
  (∀ r c, r ∈ rs → type r ≠ EPSILON → ∃ b, match_ r c = Ok b) →
  ∃ res, expand rs remaining_str step stk vis = Ok res.
Proof.
  revert stk vis. induction rs as [|rule rs IH]; intros stk vis Hm; simpl; [eauto|].
  assert (Hm' : ∀ r c, r ∈ rs → type r ≠ EPSILON → ∃ b, match_ r c = Ok b).
  { intros r c Hr. apply Hm. by right. }
  destruct (decide (type rule = Unset)) as [Hu|Hset].
  { destruct (Hm rule "a"%char ltac:(by left)) as [b Hb]; [by rewrite Hu|].
    unfold match_ in Hb. by rewrite Hu in Hb. }
  destruct (decide (type rule = EPSILON)) as [Heps|Hne].
  - destruct (decide _); by apply IH.
  - destruct remaining_str as [|c rest]; [by apply IH|].
    destruct (Hm rule c ltac:(by left) Hne) as [b ->]. simpl.
    destruct b; by apply IH.
Qed.

(** On a well-formed automaton a turn can only fail inside [backtrace]. *)
Lemma iteration_wf s q remaining_str step stk :
  stack s = (q, remaining_str, step) :: stk → reachable self text (q, remaining_str) →
  (accepting self (q, remaining_str)
   ∧ iteration self s
     = (p ← backtrace (<[step:=(q, remaining_str)]> (path s)); Ok (Return (Some p))))
  ∨ (¬ accepting self (q, remaining_str) ∧ ∃ s', iteration self s = Ok (Continue s')).
Proof.
  intros Hst Hreach. pose proof (reachable_in_range _ Hreach) as Hq. simpl in Hq.
  unfold iteration. rewrite Hst.
  destruct (py_index_in_range (is_final self) q) as [fin Hfin].
  { by rewrite (wf_final _ Hwf). }
  destruct (py_index_in_range (rules self) q) as [rs Hrs].
  { by rewrite (wf_rules _ Hwf). }
  rewrite Hfin, Hrs. simpl.
  destruct fin, remaining_str as [|c rest]; simpl.
  1: { left. split; [by split | done]. }
  all: right; split; [intros [Hf Hr]; simpl in *; congruence|].
  all: edestruct (expand_total (rev rs)) as [[stk' vis'] ->];
    [|simpl; eauto].
  all: intros r ch Hr Ht; apply (proj1 (elem_of_rev _ _)) in Hr;
    apply (match_total rs); auto; by eapply py_index_elem_of.
Qed.

Theorem exec_rejects : ¬ accepting_run self text → exec self text = Ok None.
Proof.
  intros Hno. pose proof (exec_loop_of_exec self text) as Hl.
  apply exec_loop_inv in Hl as (n & s & _ & Hrun & Hend).
  pose proof (run_reach self text n _ s (init_reach self text) Hrun) as Hall.
  destruct (stack s) as [|[[q remaining_str] step] stk] eqn:Hst.
  { unfold iteration in Hend. rewrite Hst in Hend. done. }
  apply Forall_cons in Hall as [Htop _]. simpl in Htop.
  destruct (iteration_wf s q remaining_str step stk Hst Htop)
    as [[Hacc _] | [_ [s' Hs']]].
  - exfalso. apply Hno. by exists (q, remaining_str).
  - by rewrite Hs' in Hend.
Qed.

Theorem exec_None_iff : exec self text = Ok None ↔ ¬ accepting_run self text.
Proof. split; [apply exec_None_sound | apply exec_rejects]. Qed.

(** With an accepting run the search does reach an accepting frame; what
    is left open is what [backtrace] makes of the trace. *)
Theorem exec_accepts :
  accepting_run self text →
  ∃ n s q step stk,
    run n self (init text) = Some s
    ∧ stack s = (q, EmptyString, step) :: stk
    ∧ py_index (is_final self) q = Ok true
    ∧ exec self text
      = (p ← backtrace (<[step:=(q, EmptyString)]> (path s)); Ok (Some p)).
Proof.
  intros Hrun0. pose proof (exec_loop_of_exec self text) as Hl.
  apply exec_loop_inv in Hl as (n & s & _ & Hrun & Hend).
  pose proof (run_reach self text n _ s (init_reach self text) Hrun) as Hall.
  destruct (stack s) as [|[[q remaining_str] step] stk] eqn:Hst.
  { unfold iteration in Hend. rewrite Hst in Hend.
    by apply exec_None_sound in Hend. }
  apply Forall_cons in Hall as [Htop _]. simpl in Htop.
  destruct (iteration_wf s q remaining_str step stk Hst Htop)
    as [[[Hfin Hrem] Hit] | [_ [s' Hs']]]; [|by rewrite Hs' in Hend].
  simpl in Hfin, Hrem. subst remaining_str.
  exists n, s, q, step, stk. repeat split; auto.
  rewrite Hit in Hend. by destruct (backtrace _); simpl in *.
Qed.
End WellFormed.

(** * The sample automata *)


Ltac elem_cases H :=
  repeat (apply elem_of_cons in H as [->|H]); [.. | by apply elem_of_nil in H].

Lemma nfa_dead_end_ab_wf : well_formed nfa_dead_end_ab.
Proof.
  split; simpl; try done.
  - intros rs r Hrs Hr. elem_cases Hrs; elem_cases Hr; simpl; lia.
  - intros rs r Hrs Hr. elem_cases Hrs; elem_cases Hr; simpl; by eexists.
  - intros rs r Hrs Hr. elem_cases Hrs; elem_cases Hr; simpl; done.
  - intros rs r Hrs Hr. elem_cases Hrs; elem_cases Hr; by intros ?.
Qed.

Lemma nfa_dead_end_ab_run : accepting_run nfa_dead_end_ab "ab".
Proof.
  exists (2%Z, ""%string). split; [|by split].
  eapply rtc_l.
  { eapply (move_char _ 0%Z "a"%char "b" _ (normal_rule 1 "a"));
      [reflexivity | right; by left | done | reflexivity]. }
  eapply rtc_l; [|apply rtc_refl].
  eapply (move_char _ 1%Z "b"%char "" _ (normal_rule 2 "b"));
    [reflexivity | by left | done | reflexivity].
Qed.

(** ** The scenarios of the specification *)

Section Scenarios.

Example single_a_accepts :
  exec (nfa_one_rule (normal_rule 1 "a")) "a"
  = Ok (Some {| states := [0%Z; 1%Z]; consumes := ["a"] |}).
Proof. vm_compute. reflexivity. Qed.

Example single_a_rejects_b : exec (nfa_one_rule (normal_rule 1 "a")) "b" = Ok None.
Proof. vm_compute. reflexivity. Qed.

Example self_loop_accepts :
  exec nfa_self_loop "a"
  = Ok (Some {| states := [0%Z; 0%Z; 1%Z]; consumes := [""; "a"] |}).
Proof. vm_compute. reflexivity. Qed.

Example range_accepts_m :
  exec (nfa_one_rule (mkRule 1 RANGE "a" "z")) "m"
  = Ok (Some {| states := [0%Z; 1%Z]; consumes := ["m"] |}).
Proof. vm_compute. reflexivity. Qed.

Example range_rejects_5 : exec (nfa_one_rule (mkRule 1 RANGE "a" "z")) "5" = Ok None.
Proof. vm_compute. reflexivity. Qed.

Example digit_accepts_7 :
  exec (nfa_one_rule (mkRule 1 SPECIAL "d" "")) "7"
  = Ok (Some {| states := [0%Z; 1%Z]; consumes := ["7"] |}).
Proof. vm_compute. reflexivity. Qed.

Example digit_rejects_x : exec (nfa_one_rule (mkRule 1 SPECIAL "d" "")) "x" = Ok None.
Proof. vm_compute. reflexivity. Qed.

End Scenarios.

(** * The claims *)

(** C1 (fails on the code): [nfa_dead_end_ab] is well formed and has an
    accepting run on the input ab, yet [exec] returns neither a Path nor
    None there: the accepting frame is reached and [backtrace] raises
    IndexError on the entry a dead branch left in the trace. The other half
    of the claim, that None is returned exactly when no accepting run
    exists, is lemma [exec_None_iff]. *)
Theorem C1_accepting_run_raises :
  well_formed nfa_dead_end_ab
  ∧ accepting_run nfa_dead_end_ab "ab"
  ∧ exec nfa_dead_end_ab "ab" = Raise IndexError.
Proof.
  split; [apply nfa_dead_end_ab_wf|]. split; [apply nfa_dead_end_ab_run|].
  vm_compute. reflexivity.
Qed.

(** C2: for every automaton and input, if [exec] returns a Path, then the
    entries of its consumes list, concatenated in order with the empty
    symbols left out, are the input string. *)
Theorem C2_consumes_reproduce_input (self : NFA) (text : string) (p : Path) :
  exec self text = Ok (Some p) →
  join (filter (λ c, nonempty c = true) (consumes p)) = text.
Proof.
  intros H. rewrite join_filter_nonempty.
  apply exec_Some_inv in H as (n & s & q & step & stk & Hrun & Hst & _ & Hb).
  pose proof (run_inv self text n _ s (init_inv text) Hrun) as [_ _ Hframes].
  rewrite Hst in Hframes. apply Forall_cons in Hframes as [Htop _].
  apply frame_ok_record in Htop.
  eapply backtrace_join; [exact Htop | | exact Hb]. by rewrite lookup_insert_eq.
Qed.

Lemma C2_consumes_reproduce_input_witness :
  join (filter (λ c, nonempty c = true)
          (consumes {| states := [0%Z; 0%Z; 1%Z]; consumes := [""; "a"] |})) = "a".
Proof.
  apply (C2_consumes_reproduce_input nfa_self_loop "a").
  vm_compute. reflexivity.
Defined.

(** C3 (fails on the code): on [nfa_dead_end_eps] and the empty input [exec]
    returns the Path with states 0, 3, 2, whose last state 2 is not final:
    the accepting frame is (3, empty input) at step 1, and [backtrace]
    starts from the largest key of the trace, the step 2 that the dead
    branch 0, 1, 2 recorded before. *)
Theorem C3_last_state_not_final :
  ∃ p, exec nfa_dead_end_eps "" = Ok (Some p)
       ∧ states p = [0%Z; 3%Z; 2%Z]
       ∧ last (states p) = Some 2%Z
       ∧ py_index (is_final nfa_dead_end_eps) 2 = Ok false.
Proof.
  exists {| states := [0%Z; 3%Z; 2%Z]; consumes := [""; ""] |}.
  split; [|done]. vm_compute. reflexivity.
Qed.

(** C4 (fails on the code): on [nfa_dead_end_ab] and the input ab the sixth
    turn pops the frame of the final state 2 with nothing left to read, and
    [backtrace] on the trace recorded there raises IndexError: it reads the
    first character of the empty remaining input of step 2, which differs
    from the remaining input ab that the dead branch left at step 3. *)
Theorem C4_backtrace_raises_on_accepting_frame :
  ∃ s step stk,
    run 5 nfa_dead_end_ab (init "ab") = Some s
    ∧ stack s = (2%Z, EmptyString, step) :: stk
    ∧ py_index (is_final nfa_dead_end_ab) 2 = Ok true
    ∧ backtrace (<[step:=(2%Z, EmptyString)]> (path s)) = Raise IndexError.
Proof.
  eexists _, _, _. split; [vm_compute; reflexivity|].
  split; [reflexivity|]. split; [reflexivity|]. vm_compute. reflexivity.
Qed.



(** C6: for every automaton and input, if [exec] returns a Path, its states
    list begins with 0 and its consumes list is one shorter than its states
    list. *)
Theorem C6_path_shape (self : NFA) (text : string) (p : Path) :
  exec self text = Ok (Some p) →
  head (states p) = Some 0%Z ∧ length (consumes p) = length (states p) - 1.
Proof.
  intros H. apply exec_Some_inv in H as (n & s & q & step & stk & _ & _ & _ & Hb).
  by apply backtrace_shape in Hb.
Qed.

Lemma C6_path_shape_witness :
  head (states {| states := [0%Z; 0%Z; 1%Z]; consumes := [""; "a"] |}) = Some 0%Z
  ∧ length (consumes {| states := [0%Z; 0%Z; 1%Z]; consumes := [""; "a"] |})
    = length (states {| states := [0%Z; 0%Z; 1%Z]; consumes := [""; "a"] |}) - 1.
Proof.
  apply (C6_path_shape nfa_self_loop "a"). vm_compute. reflexivity.
Defined.

(** C7, as stated, fails beyond the 7-bit range: on the superscript two,
    U+00B2 (code point 178), [isdigit] holds and the rule matches, and the
    character is not one of '0' through '9'. *)
Lemma C7_superscript_two_counterexample :
  match_ (mkRule 1 SPECIAL "d" "") "178"%char = Ok true
  ∧ ¬ ascii_digit "178"%char.
Proof.
  split; [reflexivity|]. unfold ascii_digit. intros [_ H]. vm_compute in H.
  apply H. reflexivity.
Qed.

(** C7 (amended): for every character [c] of the 7-bit ASCII range, [match_]
    on a SPECIAL rule with class tag [d] returns a boolean, and that boolean
    is true if and only if [c] is one of '0' through '9'. *)
Theorem C7_match_digit_ascii (r : Rule) (c : ascii) :
  type r = SPECIAL → by_ r = "d" → is_ascii c →
  ∃ b, match_ r c = Ok b ∧ (b = true ↔ ascii_digit c).
Proof.
  intros Ht Hb Hc. exists (isdigit c). split.
  - by apply match_special_d.
  - by apply isdigit_ascii.
Qed.

Lemma C7_match_digit_ascii_witness :
  ∃ b, match_ (mkRule 1 SPECIAL "d" "") "7"%char = Ok b
       ∧ (b = true ↔ ascii_digit "7"%char).
Proof.
  apply (C7_match_digit_ascii (mkRule 1 SPECIAL "d" "") "7"%char).
  - reflexivity.
  - reflexivity.
  - unfold is_ascii. vm_compute. reflexivity.
Defined.

(** C8, as stated, fails on rules whose fields nothing has checked. On a
    RANGE rule whose bounds are not single characters (the class defaults,
    for one) [ord] raises. And the rule that [from_text] leaves behind for a
    token it cannot read has no type: reading it raises. *)
Lemma C8_unchecked_fields_counterexample :
  (raises (match_ (mkRule 1 RANGE "" "") "a"%char)
   ∧ ¬ (type (mkRule 1 RANGE "" "") = EPSILON
        ∨ (type (mkRule 1 RANGE "" "") = SPECIAL
           ∧ ¬ known_tag (by_ (mkRule 1 RANGE "" "")))))
  ∧ (rule_tokens 0 1 "bc" (no_rules 2) = Some (Ok ([[bare_rule 1]; []], false))
     ∧ match_ (bare_rule 1) "a"%char = Raise AttributeError
     ∧ ¬ (type (bare_rule 1) = EPSILON
          ∨ (type (bare_rule 1) = SPECIAL ∧ ¬ known_tag (by_ (bare_rule 1))))).
Proof.
  split; [split | split; [|split]].
  - exists TypeError. reflexivity.
  - simpl. intros [H | [H _]]; discriminate.
  - vm_compute. reflexivity.
  - reflexivity.
  - simpl. intros [H | [H _]]; discriminate.
Qed.

(** C8 (amended): for every rule whose bounds, when it is a RANGE rule, are
    single characters, and every character [c], [match_] raises if and only
    if the rule has no type, has a type that is no member of [RuleType], is
    an EPSILON rule, or is a SPECIAL rule whose tag is not one of d, w, s, D,
    W, S and '.'; in every other case it returns a boolean. What it raises
    is AttributeError on a rule without a type and ValueError otherwise. *)
Theorem C8_match_raises_iff (r : Rule) (c : ascii) :
  range_bounds_ok r →
  (raises (match_ r c)
   ↔ type r = Unset ∨ type r = Foreign ∨ type r = EPSILON
     ∨ (type r = SPECIAL ∧ ¬ known_tag (by_ r)))
  ∧ (¬ (type r = Unset ∨ type r = Foreign ∨ type r = EPSILON
        ∨ (type r = SPECIAL ∧ ¬ known_tag (by_ r)))
     → ∃ b, match_ r c = Ok b)
  ∧ (∀ e, match_ r c = Raise e →
       e = if decide (type r = Unset) then AttributeError else ValueError).
Proof.
  intros Hr.
  assert (Hok : ¬ (type r = Unset ∨ type r = Foreign ∨ type r = EPSILON
                   ∨ (type r = SPECIAL ∧ ¬ known_tag (by_ r)))
                → ∃ b, match_ r c = Ok b).
  { intros Hn. destruct (type r) as [|[| | |]|] eqn:Ht.
    - exfalso. apply Hn. by left.
    - rewrite match_normal_ok by done. eauto.
    - destruct (Hr Ht). by apply match_range_ok.
    - apply match_special_known; [done |].
      destruct (decide (known_tag (by_ r))) as [|Hk]; [done |].
      exfalso. apply Hn. do 3 right. done.
    - exfalso. apply Hn. do 2 right. by left.
    - exfalso. apply Hn. right. by left. }
  assert (Hraise : type r = Unset ∨ type r = Foreign ∨ type r = EPSILON
                   ∨ (type r = SPECIAL ∧ ¬ known_tag (by_ r)) →
                   match_ r c
                   = Raise (if decide (type r = Unset) then AttributeError
                            else ValueError)).
  { intros [Ht | [Ht | [Ht | [Ht Hk]]]].
    - rewrite decide_True by done. unfold match_. by rewrite Ht.
    - rewrite decide_False by (by rewrite Ht). unfold match_. by rewrite Ht.
    - rewrite decide_False by (by rewrite Ht). by apply match_epsilon.
    - rewrite decide_False by (by rewrite Ht). by apply match_special_unknown. }
  assert (Hdec : ∀ e, match_ r c = Raise e →
            type r = Unset ∨ type r = Foreign ∨ type r = EPSILON
            ∨ (type r = SPECIAL ∧ ¬ known_tag (by_ r))).
  { intros e He.
    destruct (decide (type r = Unset ∨ type r = Foreign ∨ type r = EPSILON
                      ∨ (type r = SPECIAL ∧ ¬ known_tag (by_ r))))
      as [|Hn]; [done |].
    destruct (Hok Hn) as [b Hb]. congruence. }
  split; [|split; [exact Hok|]].
  - split.
    + intros [e He]. by apply (Hdec e).
    + intros H. eexists. by apply Hraise.
  - intros e He. pose proof (Hraise (Hdec e He)) as H. congruence.
Qed.

Lemma C8_match_raises_iff_witness :
  (raises (match_ (mkRule 1 RANGE "a" "z") "m"%char)
   ↔ type (mkRule 1 RANGE "a" "z") = Unset
     ∨ type (mkRule 1 RANGE "a" "z") = Foreign
     ∨ type (mkRule 1 RANGE "a" "z") = EPSILON
     ∨ (type (mkRule 1 RANGE "a" "z") = SPECIAL
        ∧ ¬ known_tag (by_ (mkRule 1 RANGE "a" "z"))))
  ∧ (¬ (type (mkRule 1 RANGE "a" "z") = Unset
        ∨ type (mkRule 1 RANGE "a" "z") = Foreign
        ∨ type (mkRule 1 RANGE "a" "z") = EPSILON
        ∨ (type (mkRule 1 RANGE "a" "z") = SPECIAL
           ∧ ¬ known_tag (by_ (mkRule 1 RANGE "a" "z"))))
     → ∃ b, match_ (mkRule 1 RANGE "a" "z") "m"%char = Ok b)
  ∧ (∀ e, match_ (mkRule 1 RANGE "a" "z") "m"%char = Raise e →
       e = if decide (type (mkRule 1 RANGE "a" "z") = Unset) then AttributeError
           else ValueError).
Proof.
  apply (C8_match_raises_iff (mkRule 1 RANGE "a" "z") "m"%char).
  intros _. split; [exists "a"%char | exists "z"%char]; reflexivity.
Defined.

(** C9: if state 0 is marked final and the input is empty, [exec] returns
    the Path with states [0] and no consumed symbol. *)
Theorem C9_start_final_empty_input (self : NFA) :
  py_index (is_final self) 0 = Ok true →
  exec self "" = Ok (Some {| states := [0%Z]; consumes := [] |}).
Proof.
  intros H. apply (exec_of_loop self 1). simpl.
  unfold iteration, init. simpl. rewrite H. simpl. reflexivity.
Qed.

Lemma C9_start_final_empty_input_witness :
  exec nfa_start_final "" = Ok (Some {| states := [0%Z]; consumes := [] |}).
Proof.
  apply (C9_start_final_empty_input nfa_start_final). reflexivity.
Defined.

(** C10: at every turn of an [exec] call the keys of the trace are the
    numbers below some [k] (none before the first turn, at least the key 0
    after it), and no pending frame has a step beyond [k]; once the popped
    frame is recorded the keys are exactly 0..k for the largest key [k],
    every [path[i]] with [i] up to [k] is there, and [backtrace] on that
    trace does not raise KeyError. *)
Theorem C10_trace_keys_contiguous (self : NFA) (text : string) (n : nat) (s : Search) :
  run n self (init text) = Some s →
  (∃ k, contiguous (path s) k ∧ (0 < n → 0 < k)
        ∧ Forall (λ f : Frame, f.2 ≤ k) (stack s))
  ∧ ∀ q remaining_str step stk,
      stack s = (q, remaining_str, step) :: stk →
      ∃ k, contiguous (<[step:=(q, remaining_str)]> (path s)) (S k)
           ∧ max_key (<[step:=(q, remaining_str)]> (path s)) = Ok k
           ∧ (∀ i, i ≤ k → ∃ v, py_get (<[step:=(q, remaining_str)]> (path s)) i = Ok v)
           ∧ backtrace (<[step:=(q, remaining_str)]> (path s)) ≠ Raise KeyError.
Proof.
  intros Hrun.
  pose proof (run_inv self text n _ s (init_inv text) Hrun) as [(k & Hk & Hle) _ _].
  split.
  - exists k. split; [done|]. split; [|done].
    intros Hn. destruct n as [|n]; [lia|].
    apply run_last in Hrun as (s1 & _ & Hit).
    destruct (iteration_Continue _ _ _ Hit)
      as (q & remaining_str & step & _ & _ & _ & _ & _ & Hpath & _).
    assert (Hsome : is_Some (path s !! step)) by (by rewrite Hpath, lookup_insert_eq).
    apply Hk in Hsome. lia.
  - intros q remaining_str step stk Hst.
    rewrite Hst in Hle. apply Forall_cons in Hle as [Hle _]. simpl in Hle.
    pose proof (contiguous_insert (path s) k step (q, remaining_str) Hk Hle) as Hk'.
    assert (Hmax : ∃ k', k `max` S step = S k') by (exists (k `max` S step - 1); lia).
    destruct Hmax as [k' Hk'eq]. rewrite Hk'eq in Hk'. exists k'.
    split; [done|]. split; [by apply contiguous_max_key|]. split.
    + intros i Hi. apply (contiguous_get _ (S k')); [done | lia].
    + by apply (backtrace_no_KeyError _ k').
Qed.

Lemma C10_trace_keys_contiguous_witness :
  ∃ s, run 2 nfa_self_loop (init "a") = Some s
  ∧ (∃ k, contiguous (path s) k ∧ (0 < 2 → 0 < k)
          ∧ Forall (λ f : Frame, f.2 ≤ k) (stack s))
  ∧ ∀ q remaining_str step stk,
      stack s = (q, remaining_str, step) :: stk →
      ∃ k, contiguous (<[step:=(q, remaining_str)]> (path s)) (S k)
           ∧ max_key (<[step:=(q, remaining_str)]> (path s)) = Ok k
           ∧ (∀ i, i ≤ k → ∃ v, py_get (<[step:=(q, remaining_str)]> (path s)) i = Ok v)
           ∧ backtrace (<[step:=(q, remaining_str)]> (path s)) ≠ Raise KeyError.
Proof.
  eexists. split; [vm_compute; reflexivity|].
  apply (C10_trace_keys_contiguous nfa_self_loop "a" 2). vm_compute. reflexivity.
Defined.

(** * Further properties *)

(** ** More on the character matcher *)

Lemma ascii_eqb_N c d : Ascii.eqb c d = (N_of_ascii c =? N_of_ascii d)%N.
Proof.
  destruct (Ascii.eqb_spec c d) as [->|Hne].
  - by rewrite N.eqb_refl.
  - symmetry. apply N.eqb_neq. intros H. apply Hne.
    by rewrite <- (ascii_N_embedding c), <- (ascii_N_embedding d), H.
Qed.

(** X1: for every character the classes D, W and S answer the opposite of d,
    w and s, and none of the six raises. *)
Theorem X1_class_complements (r r' : Rule) (c : ascii) :
  type r = SPECIAL → type r' = SPECIAL →
  (by_ r = "d" ∧ by_ r' = "D") ∨ (by_ r = "w" ∧ by_ r' = "W")
  ∨ (by_ r = "s" ∧ by_ r' = "S") →
  ∃ b, match_ r c = Ok b ∧ match_ r' c = Ok (negb b).
Proof.
  unfold match_. intros -> -> [[-> ->] | [[-> ->] | [-> ->]]]; simpl.
  - eauto.
  - eexists. split; [done|]. by rewrite negb_orb.
  - eauto.
Qed.

Lemma X1_class_complements_witness :
  ∃ b, match_ (mkRule 1 SPECIAL "w" "") "_"%char = Ok b
       ∧ match_ (mkRule 1 SPECIAL "W" "") "_"%char = Ok (negb b).
Proof.
  apply X1_class_complements; [reflexivity | reflexivity |].
  right. left. split; reflexivity.
Defined.

(** X2: a RANGE rule raises TypeError when its lower bound is not one
    character; with a lower bound [lo] it answers false below [lo] whatever
    the upper bound is, raises TypeError from [lo] on when the upper bound is
    not one character, and otherwise answers whether the character lies
    between the two bounds. *)
Theorem X2_range_bounds (r : Rule) (c : ascii) :
  type r = RANGE →
  (¬ single_char (by_ r) → match_ r c = Raise TypeError)
  ∧ (∀ lo, by_ r = String lo EmptyString →
       ((N_of_ascii c < N_of_ascii lo)%N → match_ r c = Ok false)
       ∧ ((N_of_ascii lo <= N_of_ascii c)%N → ¬ single_char (to r) →
            match_ r c = Raise TypeError)
       ∧ (∀ hi, to r = String hi EmptyString →
            match_ r c
            = Ok (bool_decide (N_of_ascii lo <= N_of_ascii c <= N_of_ascii hi)%N))).
Proof.
  unfold match_. intros ->. split.
  - intros Hn. destruct (by_ r) as [|lo [|? ?]]; try done.
    exfalso. apply Hn. by exists lo.
  - intros lo ->. simpl. split; [|split].
    + intros Hlt. apply N.leb_gt in Hlt. by rewrite Hlt.
    + intros Hle Hn. apply N.leb_le in Hle. rewrite Hle.
      destruct (to r) as [|hi [|? ?]]; try done. exfalso. apply Hn. by exists hi.
    + intros hi ->. simpl.
      destruct (N.leb_spec (N_of_ascii lo) (N_of_ascii c)) as [Hle|Hgt]; simpl.
      * f_equal. destruct (N.leb_spec (N_of_ascii c) (N_of_ascii hi)).
        -- symmetry. apply bool_decide_eq_true. lia.
        -- symmetry. apply bool_decide_eq_false. lia.
      * f_equal. symmetry. apply bool_decide_eq_false. lia.
Qed.

Lemma X2_range_bounds_witness :
  (¬ single_char (by_ (mkRule 1 RANGE "a" "")) →
     match_ (mkRule 1 RANGE "a" "") "b"%char = Raise TypeError)
  ∧ (∀ lo, by_ (mkRule 1 RANGE "a" "") = String lo EmptyString →
       ((N_of_ascii "b" < N_of_ascii lo)%N →
          match_ (mkRule 1 RANGE "a" "") "b"%char = Ok false)
       ∧ ((N_of_ascii lo <= N_of_ascii "b")%N → ¬ single_char (to (mkRule 1 RANGE "a" "")) →
            match_ (mkRule 1 RANGE "a" "") "b"%char = Raise TypeError)
       ∧ (∀ hi, to (mkRule 1 RANGE "a" "") = String hi EmptyString →
            match_ (mkRule 1 RANGE "a" "") "b"%char
            = Ok (bool_decide (N_of_ascii lo <= N_of_ascii "b" <= N_of_ascii hi)%N))).
Proof. apply X2_range_bounds. reflexivity. Defined.

(** X3: on a character of the 7-bit range the class w matches exactly the
    letters, the digits and the underscore. *)
Theorem X3_word_class_ascii (r : Rule) (c : ascii) :
  type r = SPECIAL → by_ r = "w" → is_ascii c →
  ∃ b, match_ r c = Ok b ∧ (b = true ↔ word_char c).
Proof.
  unfold match_, is_ascii, word_char. intros -> -> Hc. simpl.
  eexists. split; [done|].
  unfold isalnum, isalpha, isdigit. rewrite ascii_eqb_N.
  rewrite !orb_true_iff, !in_range_spec, !N.eqb_eq.
  change (N_of_ascii "_") with 95%N. lia.
Qed.

Lemma X3_word_class_ascii_witness :
  ∃ b, match_ (mkRule 1 SPECIAL "w" "") "_"%char = Ok b
       ∧ (b = true ↔ word_char "_"%char).
Proof.
  apply X3_word_class_ascii; [reflexivity | reflexivity |].
  unfold is_ascii. vm_compute. reflexivity.
Defined.

(** X4: on a character of the 7-bit range the class s matches exactly TAB,
    LF, VT, FF, CR, the four separators FS, GS, RS, US and the space. *)
Theorem X4_space_class_ascii (r : Rule) (c : ascii) :
  type r = SPECIAL → by_ r = "s" → is_ascii c →
  ∃ b, match_ r c = Ok b ∧ (b = true ↔ ascii_space c).
Proof.
  unfold match_, is_ascii, ascii_space. intros -> -> Hc. simpl.
  eexists. split; [done|].
  unfold isspace. rewrite !orb_true_iff, !in_range_spec, !N.eqb_eq. lia.
Qed.

Lemma X4_space_class_ascii_witness :
  ∃ b, match_ (mkRule 1 SPECIAL "s" "") "028"%char = Ok b
       ∧ (b = true ↔ ascii_space "028"%char).
Proof.
  apply X4_space_class_ascii; [reflexivity | reflexivity |].
  unfold is_ascii. vm_compute. reflexivity.
Defined.

(** ** More on backtrace *)

Section BacktraceMore.
Implicit Types (path : gmap nat (Z * string)) (i j : nat).

Lemma py_get_Some path i a : path !! i = Some a → py_get path i = Ok a.
Proof. unfold py_get. by intros ->. Qed.

Lemma backtrace_body_raise path k j e :
  contiguous path k → S j < k → backtrace_body path (S j) = Raise e → e = IndexError.
Proof.
  intros Hk Hj. unfold backtrace_body. simpl. rewrite Nat.sub_0_r.
  destruct (contiguous_get path k (S j) Hk Hj) as [cur ->].
  destruct (contiguous_get path k j Hk ltac:(lia)) as [prev ->]. simpl.
  destruct (String.eqb _ _); [done|]. destruct prev.2; simpl; congruence.
Qed.

Lemma backtrace_loop_raise path k i sts cns e :
  contiguous path k → i < k → backtrace_loop path i sts cns = Raise e → e = IndexError.
Proof.
  intros Hk. revert sts cns. induction i as [|j IH]; intros sts cns Hi; [done|].
  simpl. pose proof (backtrace_body_raise path k j) as Hb.
  destruct (backtrace_body path (S j)) as [[q c]|e']; simpl.
  - apply IH. lia.
  - intros [= <-]. by apply Hb.
Qed.

Lemma backtrace_raise path k e :
  contiguous path (S k) → backtrace path = Raise e → e = IndexError.
Proof.
  intros Hk. unfold backtrace. rewrite (contiguous_max_key path k Hk). simpl.
  pose proof (backtrace_loop_raise path (S k) k [] [] e Hk ltac:(lia)) as Hl.
  destruct (backtrace_loop path k [] []) as [[sts cns]|e']; simpl; [done|].
  intros [= <-]. by apply Hl.
Qed.

(** The loop of [backtrace] over a recorded run: it does not raise below
    the end [N] of the run, and above it only while the entries hold an
    empty remaining input. *)
Lemma backtrace_loop_states text path N q i qs cs :
  trace_ok text path N → path !! N = Some (q, EmptyString) →
  backtrace_loop path i [] [] = Ok (qs, cs) →
  length cs = i
  ∧ (∀ j, j ≤ i → ∃ b, path !! j = Some b ∧ (0%Z :: rev qs) !! j = Some b.1)
  ∧ (N ≤ i → join (take N (rev cs)) = text
             ∧ Forall (λ c, c = EmptyString) (drop N (rev cs))).
Proof.
  intros Hrun HN. revert qs cs. induction i as [|j IH]; intros qs cs.
  - simpl. intros [= <- <-]. split; [done|]. split.
    + intros j Hj. assert (j = 0) as -> by lia. exists (0%Z, text).
      split; [apply Hrun | done].
    + intros Hle. assert (N = 0) as -> by lia. simpl. split; [|constructor].
      destruct Hrun as [H0 _]. congruence.
  - intros Hl.
    destruct (backtrace_loop_join text path N q (S j) qs cs Hrun HN Hl)
      as (a & Ha & Hjoin & Hend).
    rewrite backtrace_loop_S in Hl.
    destruct (backtrace_body path (S j)) as [[q' c]|e] eqn:Hb; simpl in Hl; [|done].
    destruct (backtrace_loop path j [] []) as [[qs' cs']|e] eqn:Hl'; simpl in Hl; [|done].
    injection Hl as <- <-.
    destruct (IH qs' cs' eq_refl) as (Hlen & Hst & Htail).
    destruct (backtrace_loop_join text path N q j qs' cs' Hrun HN Hl')
      as (a' & Ha' & Hjoin' & Hend').
    apply backtrace_body_Ok in Hb as (cur & prev & Hcur & Hprev & -> & Hc).
    assert (cur = a) as -> by congruence. assert (prev = a') as -> by congruence.
    assert (Hqs : length (rev qs') = j).
    { rewrite length_rev. by destruct (backtrace_loop_length path j qs' cs' Hl'). }
    split; [simpl; lia|]. split.
    + intros i Hi. destruct (decide (i = S j)) as [->|Hne].
      * exists a. split; [done|]. simpl.
        rewrite lookup_app_r by lia. by rewrite Hqs, Nat.sub_diag.
      * destruct (Hst i ltac:(lia)) as (b & Hb & Hlook). exists b. split; [done|].
        simpl. destruct i as [|i]; [done|]. simpl in *.
        rewrite lookup_app_l by lia. done.
    + intros Hle. simpl.
      destruct (decide (N ≤ j)) as [Hle'|Hgt].
      * destruct (Htail Hle') as [Hj1 Hj2].
        rewrite take_app_le by (rewrite length_rev; lia).
        rewrite drop_app_le by (rewrite length_rev; lia).
        split; [done|]. apply Forall_app. split; [done|].
        constructor; [|constructor].
        rewrite (Hend' Hle') in Hc.
        destruct Hc as [[_ ->] | [_ (ch & rest & Hpr & _)]]; done.
      * assert (N = S j) as -> by lia.
        rewrite take_ge by (rewrite length_app, length_rev; simpl; lia).
        rewrite drop_ge by (rewrite length_app, length_rev; simpl; lia).
        split; [|constructor].
        rewrite (Hend ltac:(lia)), append_nil_r in Hjoin. exact Hjoin.
Qed.

(** The loop does not raise on a recorded run. *)
Lemma backtrace_loop_total text path N i :
  trace_ok text path N → i ≤ N → ∃ qs cs, backtrace_loop path i [] [] = Ok (qs, cs).
Proof.
  intros [H0 Hrun]. induction i as [|j IH]; intros Hi; [simpl; eauto|].
  destruct (IH ltac:(lia)) as (qs & cs & Hl).
  destruct (Hrun j ltac:(lia)) as (a & b & Ha & Hb & Hstep).
  rewrite backtrace_loop_S, Hl.
  assert (Hbody : ∃ c, backtrace_body path (S j) = Ok (b.1, c)).
  { unfold backtrace_body. simpl. rewrite Nat.sub_0_r.
    rewrite (py_get_Some _ _ _ Hb), (py_get_Some _ _ _ Ha). simpl.
    destruct (String.eqb_spec b.2 a.2) as [Heq|Hne]; [eauto|].
    destruct Hstep as [Hs | [c Hs]]; [congruence|]. rewrite Hs. simpl. eauto. }
  destruct Hbody as [c ->]. simpl. eauto.
Qed.
End BacktraceMore.

Section BacktraceClean.
Implicit Types (path : gmap nat (Z * string)) (i j : nat).

Lemma backtrace_loop_clean text path N i :
  trace_ok text path N → i ≤ N →
  ∃ qs cs a, backtrace_loop path i [] [] = Ok (qs, cs) ∧ path !! i = Some a
    ∧ length qs = i ∧ length cs = i
    ∧ join (rev cs) +:+ a.2 = text
    ∧ ∀ j, j ≤ i → ∃ b, path !! j = Some b ∧ (0%Z :: rev qs) !! j = Some b.1.
Proof.
  intros [H0 Hrun]. induction i as [|j IH]; intros Hi.
  - exists [], [], (0%Z, text). simpl. repeat split; auto.
    intros j Hj. assert (j = 0) as -> by lia. by exists (0%Z, text).
  - destruct (IH ltac:(lia)) as (qs & cs & a & Hl & Ha & Hlq & Hlc & Hjoin & Hst).
    destruct (Hrun j ltac:(lia)) as (a' & b & Ha' & Hb & Hstep).
    assert (a' = a) as -> by congruence.
    assert (Hbody : ∃ c, backtrace_body path (S j) = Ok (b.1, c) ∧ a.2 = c +:+ b.2).
    { unfold backtrace_body. simpl. rewrite Nat.sub_0_r.
      rewrite (py_get_Some _ _ _ Hb), (py_get_Some _ _ _ Ha). simpl.
      destruct (String.eqb_spec b.2 a.2) as [Heq|Hne].
      - exists EmptyString. by rewrite append_nil_l.
      - destruct Hstep as [Hs | [c Hs]]; [congruence|]. rewrite Hs. simpl.
        exists (String c EmptyString). by rewrite append_cons, append_nil_l. }
    destruct Hbody as (c & Hbody & Hc).
    exists (b.1 :: qs), (c :: cs), b.
    rewrite backtrace_loop_S, Hbody, Hl. simpl.
    split; [done|]. split; [done|]. split; [lia|]. split; [lia|]. split.
    + rewrite join_app. simpl. rewrite append_nil_r, append_assoc, <- Hc. done.
    + intros i Hi'. destruct (decide (i = S j)) as [->|Hne].
      * exists b. split; [done|]. simpl.
        rewrite lookup_app_r by (rewrite length_rev; lia).
        by rewrite length_rev, Hlq, Nat.sub_diag.
      * destruct (Hst i ltac:(lia)) as (b' & Hb' & Hlook). exists b'. split; [done|].
        destruct i as [|i]; [done|]. simpl in *.
        rewrite lookup_app_l by (rewrite length_rev; lia). done.
Qed.

Lemma backtrace_of_run text path N q remaining_str :
  trace_ok text path N → contiguous path (S N) → path !! N = Some (q, remaining_str) →
  ∃ p, backtrace path = Ok p
       ∧ length (states p) = S N
       ∧ (∀ i, i ≤ N → ∃ b, path !! i = Some b ∧ states p !! i = Some b.1)
       ∧ join (consumes p) +:+ remaining_str = text.
Proof.
  intros Hrun Hk HN. unfold backtrace. rewrite (contiguous_max_key path N Hk). simpl.
  destruct (backtrace_loop_clean text path N N Hrun ltac:(lia))
    as (qs & cs & a & -> & Ha & Hlq & Hlc & Hjoin & Hst).
  simpl. eexists. split; [done|]. simpl.
  assert (a = (q, remaining_str)) as -> by congruence.
  rewrite rev_app_distr. simpl. split; [rewrite length_rev; lia|]. split; [done|]. done.
Qed.
End BacktraceClean.

(** X5: on a trace whose keys are 0..N and whose entries are a run from
    (0, text), [backtrace] does not raise: it returns N+1 states, the states
    of the entries in order, and the consumed symbols followed by the
    remaining input of the last entry spell the text. *)
Theorem X5_backtrace_of_run (text : string) (path : gmap nat (Z * string))
    (N : nat) (q : Z) (remaining_str : string) :
  trace_ok text path N → contiguous path (S N) → path !! N = Some (q, remaining_str) →
  ∃ p, backtrace path = Ok p
       ∧ length (states p) = S N
       ∧ (∀ i, i ≤ N → ∃ b, path !! i = Some b ∧ states p !! i = Some b.1)
       ∧ join (consumes p) +:+ remaining_str = text.
Proof. apply backtrace_of_run. Qed.

Lemma trace_a_eps_ok : trace_ok "ab" trace_a_eps 2.
Proof.
  split; [reflexivity|]. intros i Hi.
  destruct i as [|[|i]]; [| |lia].
  - exists (0%Z, "ab"), (1%Z, "b"). repeat split. right. by exists "a"%char.
  - exists (1%Z, "b"), (2%Z, "b"). repeat split. by left.
Qed.

Lemma trace_a_eps_keys : contiguous trace_a_eps 3.
Proof.
  intros i. destruct i as [|[|[|i]]].
  - split; [lia | by eexists].
  - split; [lia | by eexists].
  - split; [lia | by eexists].
  - split; [|lia]. intros [v Hv].
    unfold trace_a_eps in Hv. by rewrite !lookup_insert_ne, lookup_empty in Hv by lia.
Qed.

Lemma X5_backtrace_of_run_witness :
  ∃ p, backtrace trace_a_eps = Ok p
       ∧ length (states p) = 3
       ∧ (∀ i, i ≤ 2 → ∃ b, trace_a_eps !! i = Some b ∧ states p !! i = Some b.1)
       ∧ join (consumes p) +:+ "b" = "ab".
Proof.
  apply (X5_backtrace_of_run "ab" trace_a_eps 2 2%Z "b").
  - apply trace_a_eps_ok.
  - apply trace_a_eps_keys.
  - reflexivity.
Defined.

(** ** More on exec *)

Section ExecMore.
Context (self : NFA).
Implicit Types (s : Search) (text : string).

Lemma py_index_raise {A} (l : list A) i e : py_index l i = Raise e → e = IndexError.
Proof.
  unfold py_index. destruct (_ && _)%bool; [|congruence].
  destruct (l !! _); congruence.
Qed.

(** Once the popped frame is recorded the keys of the trace are 0..k. *)
Lemma recorded_contiguous text s q remaining_str step stk :
  search_inv text s → stack s = (q, remaining_str, step) :: stk →
  ∃ k, contiguous (<[step:=(q, remaining_str)]> (path s)) (S k) ∧ step ≤ k.
Proof.
  intros [(k & Hk & Hle) _ _] Hst.
  rewrite Hst in Hle. apply Forall_cons in Hle as [Hle _]. simpl in Hle.
  pose proof (contiguous_insert (path s) k step (q, remaining_str) Hk Hle) as Hk'.
  exists (k `max` S step - 1). split; [|lia].
  replace (S (k `max` S step - 1)) with (k `max` S step) by lia. done.
Qed.

Lemma exec_of_run n text s r :
  run n self (init text) = Some s →
  match iteration self s with
  | Raise e => r = Raise e
  | Ok (Return o) => r = Ok o
  | Ok (Continue _) => False
  end →
  exec self text = r.
Proof.
  intros Hrun Hend. apply (exec_of_loop self (n + 1)).
  rewrite (exec_loop_run self n 1 _ _ Hrun). simpl.
  destruct (iteration self s) as [[s'|o]|e]; [done | by subst | by subst].
Qed.

Lemma exec_end text :
  ∃ n s, run n self (init text) = Some s
    ∧ match iteration self s with
      | Raise e => exec self text = Raise e
      | Ok (Return o) => exec self text = Ok o
      | Ok (Continue _) => False
      end.
Proof.
  pose proof (exec_loop_of_exec self text) as Hl.
  apply exec_loop_inv in Hl as (n & s & _ & Hrun & Hend). eauto.
Qed.

Lemma exec_Some_run text p : exec self text = Ok (Some p) → accepting_run self text.
Proof.
  intros H. apply exec_Some_inv in H as (n & s & q & step & stk & Hrun & Hst & Hfin & _).
  pose proof (run_reach self text n _ s (init_reach self text) Hrun) as Hall.
  rewrite Hst in Hall. apply Forall_cons in Hall as [Htop _].
  exists (q, EmptyString). split; [exact Htop | by split].
Qed.

Lemma exec_Some_structure text p :
  exec self text = Ok (Some p) →
  ∃ k q, states p !! k = Some q
         ∧ py_index (is_final self) q = Ok true
         ∧ join (take k (consumes p)) = text
         ∧ Forall (λ c, c = EmptyString) (drop k (consumes p)).
Proof.
  intros H. apply exec_Some_inv in H as (n & s & q & step & stk & Hrun & Hst & Hfin & Hb).
  pose proof (run_inv self text n _ s (init_inv text) Hrun) as [_ _ Hframes].
  rewrite Hst in Hframes. apply Forall_cons in Hframes as [Htop _].
  apply frame_ok_record in Htop.
  set (path' := <[step:=(q, EmptyString)]> (path s)) in *.
  assert (HN : path' !! step = Some (q, EmptyString)) by apply lookup_insert_eq.
  unfold backtrace in Hb.
  destruct (max_key path') as [m|e] eqn:Hm; simpl in Hb; [|done].
  destruct (backtrace_loop path' m [] []) as [[qs cs]|e] eqn:Hl; simpl in Hb; [|done].
  injection Hb as <-. simpl.
  destruct (max_key_Ok path' m step Hm) as [Hle _]; [by rewrite HN|].
  destruct (backtrace_loop_states text path' step q m qs cs Htop HN Hl)
    as (_ & Hst' & Htail).
  destruct (Hst' step Hle) as (b & Hb & Hlook).
  assert (b = (q, EmptyString)) as -> by congruence.
  exists step, q. rewrite rev_app_distr. simpl.
  split; [done|]. split; [done|]. by apply Htail.
Qed.

Lemma exec_raise_wf text e :
  well_formed self → exec self text = Raise e →
  e = IndexError ∧ accepting_run self text.
Proof.
  intros Hwf H. destruct (exec_end text) as (n & s & Hrun & Hend).
  pose proof (run_reach self text n _ s (init_reach self text) Hrun) as Hall.
  pose proof (run_inv self text n _ s (init_inv text) Hrun) as Hinv.
  destruct (stack s) as [|[[q remaining_str] step] stk] eqn:Hst.
  { unfold iteration in Hend. rewrite Hst in Hend. congruence. }
  apply Forall_cons in Hall as [Htop _]. simpl in Htop.
  destruct (iteration_wf self Hwf text s q remaining_str step stk Hst Htop)
    as [[Hacc Hit] | [_ [s' Hs']]]; [|by rewrite Hs' in Hend].
  split; [|by exists (q, remaining_str)].
  destruct (recorded_contiguous text s q remaining_str step stk Hinv Hst) as (k & Hk & _).
  rewrite Hit in Hend.
  destruct (backtrace _) as [p|e'] eqn:Hb; simpl in Hend; [congruence|].
  apply (backtrace_raise _ k) in Hb; [|done]. congruence.
Qed.

(** On the empty input no rule is tried against a character: the loop over
    the rules can only fail on a rule without a type. *)
Lemma expand_empty rs step stk vis :
  (∃ res, expand rs EmptyString step stk vis = Ok res)
  ∨ (expand rs EmptyString step stk vis = Raise AttributeError
     ∧ ∃ r, r ∈ rs ∧ type r = Unset).
Proof.
  revert stk vis. induction rs as [|rule rs IH]; intros stk vis; simpl; [eauto|].
  assert (Hrest : ∀ stk1 vis1,
    (∃ res, expand rs EmptyString step stk1 vis1 = Ok res)
    ∨ (expand rs EmptyString step stk1 vis1 = Raise AttributeError
       ∧ ∃ r, r ∈ rule :: rs ∧ type r = Unset)).
  { intros stk1 vis1. destruct (IH stk1 vis1) as [H | (H & r & Hr & Ht)]; [by left|].
    right. split; [done|]. exists r. split; [by right | done]. }
  destruct (decide (type rule = Unset)) as [Hu|Hset].
  { right. split; [done|]. exists rule. split; [by left | done]. }
  destruct (decide (type rule = EPSILON)); [destruct (decide _)|]; apply Hrest.
Qed.

Lemma iteration_empty_input s s' :
  Forall (λ f : Frame, f.1.2 = EmptyString) (stack s) →
  iteration self s = Ok (Continue s') →
  Forall (λ f : Frame, f.1.2 = EmptyString) (stack s').
Proof.
  intros Hall Hit.
  destruct (iteration_Continue _ _ _ Hit)
    as (q & remaining_str & step & stk & rs & new & Hst & Hrs & Hpath & Hex & Hst').
  destruct (expand_spec _ _ _ _ _ _ _ Hex) as (new' & Hnew & _ & _ & HF & _).
  apply app_inv_tail in Hnew as <-.
  rewrite Hst in Hall. apply Forall_cons in Hall as [Htop Hall]. simpl in Htop.
  rewrite Hst'. apply Forall_app. split; [|done].
  eapply Forall_impl; [exact HF|].
  intros f [_ [(Hf & _) | (c & _ & Hc & _)]].
  - by rewrite Hf.
  - rewrite Htop in Hc. discriminate.
Qed.

Lemma run_empty_input n s0 s :
  Forall (λ f : Frame, f.1.2 = EmptyString) (stack s0) → run n self s0 = Some s →
  Forall (λ f : Frame, f.1.2 = EmptyString) (stack s).
Proof.
  revert s0. induction n as [|n IH]; intros s0 Hall; simpl.
  - by intros [= <-].
  - destruct (iteration self s0) as [[s1|o]|e] eqn:Hit; [|done|done].
    apply IH. by eapply iteration_empty_input.
Qed.

Lemma exec_empty_raise e :
  exec self EmptyString = Raise e →
  e = IndexError
  ∨ (e = AttributeError ∧ ∃ rs r, rs ∈ rules self ∧ r ∈ rs ∧ type r = Unset).
Proof.
  intros H. destruct (exec_end EmptyString) as (n & s & Hrun & Hend).
  pose proof (run_inv self _ n _ s (init_inv _) Hrun) as Hinv.
  assert (Hall : Forall (λ f : Frame, f.1.2 = EmptyString) (stack s)).
  { eapply run_empty_input; [|exact Hrun]. constructor; [done | constructor]. }
  unfold iteration in Hend.
  destruct (stack s) as [|[[q remaining_str] step] stk] eqn:Hst; [congruence|].
  apply Forall_cons in Hall as [Htop _]. simpl in Htop. subst remaining_str.
  destruct (recorded_contiguous _ s q EmptyString step stk Hinv Hst) as (k & Hk & _).
  destruct (py_index (is_final self) q) as [fin|e1] eqn:Hfin; simpl in Hend.
  2: { apply py_index_raise in Hfin. left. congruence. }
  destruct fin; simpl in Hend.
  - destruct (backtrace _) as [p|e2] eqn:Hb; simpl in Hend; [congruence|].
    apply (backtrace_raise _ k) in Hb; [|done]. left. congruence.
  - destruct (py_index (rules self) q) as [rs|e1] eqn:Hrs; simpl in Hend.
    2: { apply py_index_raise in Hrs. left. congruence. }
    destruct (expand_empty (rev rs) step stk (visited s))
      as [[[stk' vis'] Hex] | (Hex & r & Hr & Ht)]; rewrite Hex in Hend; simpl in Hend.
    + done.
    + right. split; [congruence|]. exists rs, r.
      split; [by eapply py_index_elem_of|]. split; [by apply elem_of_rev | done].
Qed.

Lemma iteration_turn s s' q remaining_str step stk rs :
  stack s = (q, remaining_str, step) :: stk → py_index (rules self) q = Ok rs →
  iteration self s = Ok (Continue s') →
  stack s' = (child remaining_str step <$> fired (visited s) remaining_str rs) ++ stk
  ∧ visited s' = list_to_set (eps_configs remaining_str rs) ∪ visited s
  ∧ path s' = <[step:=(q, remaining_str)]> (path s).
Proof.
  intros Hst Hrs Hit.
  destruct (iteration_fired _ _ _ Hit)
    as (q' & rem' & step' & stk0 & rs' & Hst0 & Hrs' & Hst' & Hvis & Hpath).
  rewrite Hst in Hst0. injection Hst0 as <- <- <- <-.
  assert (rs' = rs) as -> by congruence. done.
Qed.

Lemma accept_at_deepest n text s q step stk :
  run n self (init text) = Some s →
  stack s = (q, EmptyString, step) :: stk →
  py_index (is_final self) q = Ok true →
  max_list (elements (dom (path s))) ≤ step →
  ∃ p, exec self text = Ok (Some p)
       ∧ length (states p) = S step
       ∧ last (states p) = Some q
       ∧ join (consumes p) = text.
Proof.
  intros Hrun Hst Hfin Hmax.
  pose proof (run_inv self text n _ s (init_inv text) Hrun) as Hinv.
  pose proof Hinv as [(k & Hk & _) _ Hframes].
  rewrite Hst in Hframes. apply Forall_cons in Hframes as [Htop _].
  apply frame_ok_record in Htop.
  assert (Hkle : k ≤ S step).
  { destruct k as [|k]; [lia|].
    assert (Hin : k ∈ elements (dom (path s))).
    { apply elem_of_elements, elem_of_dom, Hk. lia. }
    apply max_list_elem_of_le in Hin. lia. }
  pose proof (contiguous_insert (path s) k step (q, EmptyString) Hk) as Hk'.
  assert (Hstep : step ≤ k).
  { destruct Hinv as [(k0 & Hk0 & Hle0) _ _]. rewrite Hst in Hle0.
    apply Forall_cons in Hle0 as [Hle0 _]. simpl in Hle0.
    destruct (decide (k0 ≤ k)); [lia|].
    assert (is_Some (path s !! k)) as Hs by (apply Hk0; lia). apply Hk in Hs. lia. }
  specialize (Hk' Hstep). replace (k `max` S step) with (S step) in Hk' by lia.
  destruct (backtrace_of_run text _ step q EmptyString Htop Hk')
    as (p & Hb & Hlen & Hstates & Hjoin); [apply lookup_insert_eq|].
  exists p. split; [|split; [done|split]].
  - apply (exec_of_run n text s); [done|].
    unfold iteration. rewrite Hst, Hfin. simpl. by rewrite Hb.
  - rewrite last_lookup, Hlen. simpl.
    destruct (Hstates step ltac:(lia)) as (b & Hb' & Hlook).
    rewrite lookup_insert_eq in Hb'. injection Hb' as <-. done.
  - by rewrite append_nil_r in Hjoin.
Qed.
End ExecMore.

Lemma trace_stale_keys : contiguous trace_stale 4.
Proof.
  intros i. destruct i as [|[|[|[|i]]]]; try (split; [lia | by eexists]).
  split; [|lia]. intros [v Hv].
  unfold trace_stale in Hv. by rewrite !lookup_insert_ne, lookup_empty in Hv by lia.
Qed.

(** X6: on a trace whose keys are 0..k the only exception [backtrace] can
    raise is IndexError. *)
Theorem X6_backtrace_only_IndexError (path : gmap nat (Z * string)) (k : nat) :
  contiguous path (S k) →
  (∃ p, backtrace path = Ok p) ∨ backtrace path = Raise IndexError.
Proof.
  intros Hk. destruct (backtrace path) as [p|e] eqn:Hb; [eauto|].
  right. by rewrite (backtrace_raise path k e Hk Hb).
Qed.

Lemma X6_backtrace_only_IndexError_witness :
  (∃ p, backtrace trace_stale = Ok p) ∨ backtrace trace_stale = Raise IndexError.
Proof. apply (X6_backtrace_only_IndexError trace_stale 3). apply trace_stale_keys. Defined.

(** X7: for every automaton, when [exec] returns None no accepting run
    exists. *)
Theorem X7_none_means_no_accepting_run (self : NFA) (text : string) :
  exec self text = Ok None → ¬ accepting_run self text.
Proof. apply exec_None_sound. Qed.

Lemma X7_none_means_no_accepting_run_witness :
  ¬ accepting_run nfa_self_loop "b".
Proof.
  apply (X7_none_means_no_accepting_run nfa_self_loop "b"). vm_compute. reflexivity.
Defined.

(** X8: for a well-formed automaton, when no accepting run exists [exec]
    returns None. *)
Theorem X8_no_accepting_run_means_none (self : NFA) (text : string) :
  well_formed self → ¬ accepting_run self text → exec self text = Ok None.
Proof. intros Hwf. by apply exec_rejects. Qed.

Lemma nfa_dead_end_ab_rejects_b : ¬ accepting_run nfa_dead_end_ab "b".
Proof. apply exec_None_sound. vm_compute. reflexivity. Qed.

Lemma X8_no_accepting_run_means_none_witness :
  exec nfa_dead_end_ab "b" = Ok None.
Proof.
  apply (X8_no_accepting_run_means_none nfa_dead_end_ab "b").
  - apply nfa_dead_end_ab_wf.
  - apply nfa_dead_end_ab_rejects_b.
Defined.

(** X9: for every automaton, when [exec] returns a Path an accepting run
    exists. *)
Theorem X9_path_means_accepting_run (self : NFA) (text : string) (p : Path) :
  exec self text = Ok (Some p) → accepting_run self text.
Proof. apply exec_Some_run. Qed.

Lemma X9_path_means_accepting_run_witness : accepting_run nfa_dead_end_eps "".
Proof.
  apply (X9_path_means_accepting_run nfa_dead_end_eps ""
           {| states := [0%Z; 3%Z; 2%Z]; consumes := [""; ""] |}).
  vm_compute. reflexivity.
Defined.

(** X10: on a well-formed automaton [exec] returns, or it raises IndexError,
    and that only on an input that has an accepting run. *)
Theorem X10_well_formed_raises_only_on_acceptance (self : NFA) (text : string) :
  well_formed self →
  (∃ o, exec self text = Ok o)
  ∨ (exec self text = Raise IndexError ∧ accepting_run self text).
Proof.
  intros Hwf. destruct (exec self text) as [o|e] eqn:He; [eauto|].
  right. destruct (exec_raise_wf self text e Hwf He) as [-> Hrun]. done.
Qed.

Lemma X10_well_formed_raises_only_on_acceptance_witness :
  (∃ o, exec nfa_dead_end_ab "ab" = Ok o)
  ∨ (exec nfa_dead_end_ab "ab" = Raise IndexError ∧ accepting_run nfa_dead_end_ab "ab").
Proof.
  apply (X10_well_formed_raises_only_on_acceptance nfa_dead_end_ab "ab").
  apply nfa_dead_end_ab_wf.
Defined.

(** X11: a Path returned by [exec] holds a final state at some position k,
    its first k consumed symbols spell the input, and every later symbol is
    empty. *)
Theorem X11_path_holds_the_accepting_prefix (self : NFA) (text : string) (p : Path) :
  exec self text = Ok (Some p) →
  ∃ k q, states p !! k = Some q
         ∧ py_index (is_final self) q = Ok true
         ∧ join (take k (consumes p)) = text
         ∧ Forall (λ c, c = EmptyString) (drop k (consumes p)).
Proof. apply exec_Some_structure. Qed.

Lemma X11_path_holds_the_accepting_prefix_witness :
  ∃ k q, states {| states := [0%Z; 3%Z; 2%Z]; consumes := [""; ""] |} !! k = Some q
         ∧ py_index (is_final nfa_dead_end_eps) q = Ok true
         ∧ join (take k (consumes {| states := [0%Z; 3%Z; 2%Z]; consumes := [""; ""] |})) = ""
         ∧ Forall (λ c, c = EmptyString)
             (drop k (consumes {| states := [0%Z; 3%Z; 2%Z]; consumes := [""; ""] |})).
Proof.
  apply (X11_path_holds_the_accepting_prefix nfa_dead_end_eps "").
  vm_compute. reflexivity.
Defined.

(** The rules of [nfa_unread_token] are what the token loop makes of its
    rules line, and [exec] fails on them before it reads any input. *)
Lemma nfa_unread_token_raises :
  rule_tokens 0 1 "a bc d" (no_rules 2) = Some (Ok (rules nfa_unread_token, false))
  ∧ exec nfa_unread_token "" = Raise AttributeError
  ∧ exec nfa_unread_token "a" = Raise AttributeError.
Proof. split; [|split]; vm_compute; reflexivity. Qed.

(** X12: on the empty input no rule is tried against a character, so an
    unknown class tag, a malformed range bound or a type that is no member
    of [RuleType] goes unnoticed: [exec] returns, or raises IndexError, or
    raises AttributeError, and this last only when some rule of the
    automaton has no type. *)
Theorem X12_empty_input_skips_the_matcher (self : NFA) :
  (∃ o, exec self "" = Ok o)
  ∨ exec self "" = Raise IndexError
  ∨ (exec self "" = Raise AttributeError
     ∧ ∃ rs r, rs ∈ rules self ∧ r ∈ rs ∧ type r = Unset).
Proof.
  destruct (exec self "") as [o|e] eqn:He; [eauto|]. right.
  destruct (exec_empty_raise self e He) as [-> | [-> H]]; [by left | by right].
Qed.

(** X13: in a turn that goes on, the new stack is the old one without its
    top, under the frames of the rules of the popped state that fire, in the
    order in which these rules are declared, the first on top. A rule that is
    no epsilon rule fires when it matches the first character of the
    remaining input; an epsilon rule fires when its target configuration is
    unmarked and no epsilon rule declared after it leads to the same state.
    The marks grow by the targets of all the epsilon rules of the state, and
    the popped frame is recorded at its step. *)
Theorem X13_pushes_follow_declaration_order (self : NFA) (s s' : Search)
    (q : Z) (remaining_str : string) (step : nat) (stk : list Frame) (rs : list Rule) :
  stack s = (q, remaining_str, step) :: stk → py_index (rules self) q = Ok rs →
  iteration self s = Ok (Continue s') →
  stack s' = (child remaining_str step <$> fired (visited s) remaining_str rs) ++ stk
  ∧ visited s' = list_to_set (eps_configs remaining_str rs) ∪ visited s
  ∧ path s' = <[step:=(q, remaining_str)]> (path s).
Proof. apply iteration_turn. Qed.

Lemma X13_pushes_follow_declaration_order_witness :
  ∃ s', iteration nfa_self_loop (init "a") = Ok (Continue s')
  ∧ stack s'
    = (child "a" 0 <$> fired (visited (init "a")) "a"
                             [epsilon_rule 0; normal_rule 1 "a"]) ++ []
  ∧ visited s'
    = list_to_set (eps_configs "a" [epsilon_rule 0; normal_rule 1 "a"])
      ∪ visited (init "a")
  ∧ path s' = <[0:=(0%Z, "a")]> (path (init "a")).
Proof.
  eexists. split; [vm_compute; reflexivity|].
  eapply (X13_pushes_follow_declaration_order nfa_self_loop (init "a") _ 0%Z "a" 0 []).
  - reflexivity.
  - reflexivity.
  - vm_compute. reflexivity.
Defined.

(** X14: when the accepting frame is popped at a step that no key of the
    trace exceeds, [exec] returns a Path with step+1 states that ends in the
    accepting state and whose consumed symbols spell the input. *)
Theorem X14_accepting_at_the_deepest_step (self : NFA) (text : string) (n : nat)
    (s : Search) (q : Z) (step : nat) (stk : list Frame) :
  run n self (init text) = Some s →
  stack s = (q, EmptyString, step) :: stk →
  py_index (is_final self) q = Ok true →
  max_list (elements (dom (path s))) ≤ step →
  ∃ p, exec self text = Ok (Some p)
       ∧ length (states p) = S step
       ∧ last (states p) = Some q
       ∧ join (consumes p) = text.
Proof. apply accept_at_deepest. Qed.

Lemma X14_accepting_at_the_deepest_step_witness :
  ∃ p, exec nfa_self_loop "a" = Ok (Some p)
       ∧ length (states p) = 3
       ∧ last (states p) = Some 1%Z
       ∧ join (consumes p) = "a".
Proof.
  eapply (X14_accepting_at_the_deepest_step nfa_self_loop "a" 2 _ 1%Z 2).
  - vm_compute. reflexivity.
  - reflexivity.
  - reflexivity.
  - vm_compute. lia.
Defined.

(** ** The text of a path and the entry point *)

Section PathStr.
Implicit Types (self : Path).

Lemma py_index_nat {A} (l : list A) i x : l !! i = Some x → py_index l (Z.of_nat i) = Ok x.
Proof.
  intros Hl. pose proof (lookup_lt_Some _ _ _ Hl) as Hlt. unfold py_index.
  destruct (Z.of_nat i <? 0)%Z eqn:Hneg; [apply Z.ltb_lt in Hneg; lia|].
  destruct (0 <=? Z.of_nat i)%Z eqn:H0; [|apply Z.leb_gt in H0; lia].
  destruct (Z.of_nat i <? Z.of_nat (length l))%Z eqn:H1; [|apply Z.ltb_ge in H1; lia].
  simpl. by rewrite Nat2Z.id, Hl.
Qed.

Lemma py_index_last {A} (l : list A) x : last l = Some x → py_index l (-1) = Ok x.
Proof.
  rewrite last_lookup. intros Hl. pose proof (lookup_lt_Some _ _ _ Hl) as Hlt.
  unfold py_index. change (-1 <? 0)%Z with true. cbv iota zeta.
  destruct (0 <=? -1 + Z.of_nat (length l))%Z eqn:H0; [|apply Z.leb_gt in H0; lia].
  destruct (-1 + Z.of_nat (length l) <? Z.of_nat (length l))%Z eqn:H1;
    [|apply Z.ltb_ge in H1; lia].
  simpl. replace (Z.to_nat (-1 + Z.of_nat (length l))) with (pred (length l)) by lia.
  by rewrite Hl.
Qed.

Lemma str_loop_spec self i n text :
  i + n ≤ length (states self) → i + n ≤ length (consumes self) →
  str_loop self i n text
  = Ok (text +:+ join (zip_with str_piece (take n (drop i (states self)))
                                          (take n (drop i (consumes self))))).
Proof.
  revert i text. induction n as [|n IH]; intros i text Hs Hc; simpl.
  - by rewrite append_nil_r.
  - destruct (lookup_lt_is_Some_2 (states self) i ltac:(lia)) as [q Hq].
    destruct (lookup_lt_is_Some_2 (consumes self) i ltac:(lia)) as [c Hc'].
    rewrite (py_index_nat _ _ _ Hq), (py_index_nat _ _ _ Hc'). simpl.
    rewrite IH by lia.
    rewrite (drop_S _ _ _ Hq), (drop_S _ _ _ Hc'). simpl.
    by rewrite append_assoc.
Qed.

Lemma Path_str_value self :
  Z.of_nat (length (consumes self)) = (Z.of_nat (length (states self)) - 1)%Z →
  ∃ q, last (states self) = Some q
       ∧ Path_str self
         = Value (join (zip_with str_piece (states self) (consumes self)) +:+ py_str q).
Proof.
  intros Hlen. unfold Path_str. rewrite decide_False by (by intros ?).
  assert (Hq : is_Some (last (states self))).
  { rewrite last_lookup. apply lookup_lt_is_Some_2. lia. }
  destruct Hq as [q Hq]. exists q. split; [done|].
  rewrite str_loop_spec; [|lia|lia]. rewrite (py_index_last _ _ Hq).
  rewrite !drop_0, append_nil_l. rewrite (take_ge (consumes self)) by lia.
  f_equal. f_equal. f_equal.
  rewrite <- (take_drop (length (consumes self)) (states self)) at 2.
  rewrite zip_with_app_l, length_take.
  replace (length (consumes self) `min` length (states self))
    with (length (consumes self)) by lia.
  by rewrite drop_all, zip_with_nil_r, app_nil_r, firstn_all.
Qed.
End PathStr.

Section Report.
Context (self : NFA).

Lemma exec_Some_str text p :
  exec self text = Ok (Some p) →
  ∃ rest, Path_str p = Value (String "0" rest).
Proof.
  intros H. apply exec_Some_inv in H as (n & s & q & step & stk & _ & _ & _ & Hb).
  apply backtrace_shape in Hb as [Hhead Hlen].
  destruct (states p) as [|q0 sts] eqn:Hst; [done|]. injection Hhead as ->.
  destruct (Path_str_value p) as (ql & Hlast & ->).
  { rewrite Hst, Hlen. simpl. lia. }
  rewrite Hst in *. simpl in Hlen.
  destruct (consumes p) as [|c cs]; simpl.
  - destruct sts; [|simpl in Hlen; lia]. injection Hlast as <-.
    exists EmptyString. reflexivity.
  - eexists. unfold str_piece. change (py_str 0) with (String "0" EmptyString).
    rewrite !append_cons. reflexivity.
Qed.

Lemma report_Reject text :
  report self text = Value "Reject" ↔ exec self text = Ok None.
Proof.
  unfold report. destruct (exec self text) as [[p|]|e] eqn:He; split; try done.
  destruct (exec_Some_str text p He) as [rest ->]. done.
Qed.
End Report.

Section FindInput.

Lemma find_input_loop_none lines acc :
  Forall (λ line, is_input_line line = false) lines →
  find_input_loop lines acc = acc.
Proof.
  intros H. revert acc. induction H as [|line lines Hl _ IH]; intros acc; [done|].
  simpl. by rewrite Hl, IH.
Qed.

Lemma find_input_loop_app before after acc :
  find_input_loop (before ++ after) acc
  = find_input_loop after (find_input_loop before acc).
Proof.
  revert acc. induction before as [|line before IH]; intros acc; [done|].
  simpl. by rewrite IH.
Qed.

Lemma prefix_cons a s b t :
  String.prefix (String a s) (String b t)
  = if ascii_dec a b then String.prefix s t else false.
Proof. reflexivity. Qed.

Lemma prefix_drop s t :
  String.prefix s t = true → t = s +:+ py_drop (String.length s) t.
Proof.
  revert t. induction s as [|a s IH]; intros t; [done|].
  destruct t as [|b t]; [done|]. rewrite prefix_cons.
  destruct (ascii_dec a b) as [<-|]; [|done].
  intros H. rewrite append_cons. simpl. by rewrite <- IH.
Qed.

Lemma py_drop_prefix line :
  is_input_line line = true → line = "input: " +:+ py_drop 7 line.
Proof. apply prefix_drop. Qed.
End FindInput.

(** X15: [Path.__str__] returns a text when the consumes list is one shorter
    than the states list and raises AssertionError otherwise, an empty
    states list included; it raises nothing else. *)
Theorem X15_str_raises_on_length_mismatch (self : Path) :
  (Z.of_nat (length (consumes self)) = (Z.of_nat (length (states self)) - 1)%Z →
     ∃ text, Path_str self = Value text)
  ∧ (Z.of_nat (length (consumes self)) ≠ (Z.of_nat (length (states self)) - 1)%Z →
     Path_str self = Raised AssertionError).
Proof.
  split.
  - intros Hlen. destruct (Path_str_value self Hlen) as (q & _ & ->). eauto.
  - intros Hlen. unfold Path_str. by rewrite decide_True.
Qed.

(** X16: the text of a path is, for each consumed symbol in order, the
    state, a space, the symbol and a space, followed by the last state. *)
Theorem X16_str_format (self : Path) :
  Z.of_nat (length (consumes self)) = (Z.of_nat (length (states self)) - 1)%Z →
  ∃ q, last (states self) = Some q
       ∧ Path_str self
         = Value (join (zip_with str_piece (states self) (consumes self)) +:+ py_str q).
Proof. apply Path_str_value. Qed.

Lemma X16_str_format_witness :
  ∃ q, last (states {| states := [0%Z; 1%Z; 2%Z]; consumes := ["a"; ""] |}) = Some q
       ∧ Path_str {| states := [0%Z; 1%Z; 2%Z]; consumes := ["a"; ""] |}
         = Value (join (zip_with str_piece
                          (states {| states := [0%Z; 1%Z; 2%Z]; consumes := ["a"; ""] |})
                          (consumes {| states := [0%Z; 1%Z; 2%Z]; consumes := ["a"; ""] |}))
                  +:+ py_str q).
Proof. apply X16_str_format. reflexivity. Defined.

(** X17: [Path.__str__] does not raise on a Path returned by [exec], and the
    text begins with the character 0. *)
Theorem X17_exec_path_prints (self : NFA) (text : string) (p : Path) :
  exec self text = Ok (Some p) →
  ∃ rest, Path_str p = Value (String "0" rest).
Proof. apply exec_Some_str. Qed.

Lemma X17_exec_path_prints_witness :
  ∃ rest, Path_str {| states := [0%Z; 0%Z; 1%Z]; consumes := [""; "a"] |}
          = Value (String "0" rest).
Proof.
  apply (X17_exec_path_prints nfa_self_loop "a"). vm_compute. reflexivity.
Defined.

(** X18: for a well-formed automaton the entry point prints Reject exactly
    when no accepting run exists. *)
Theorem X18_report_reject_iff (self : NFA) (text : string) :
  well_formed self →
  report self text = Value "Reject" ↔ ¬ accepting_run self text.
Proof.
  intros Hwf. rewrite report_Reject. by apply exec_None_iff.
Qed.

Lemma X18_report_reject_iff_witness :
  report nfa_dead_end_ab "b" = Value "Reject" ↔ ¬ accepting_run nfa_dead_end_ab "b".
Proof. apply X18_report_reject_iff. apply nfa_dead_end_ab_wf. Defined.

(** X19: of the lines that start with [input: ] the last one gives the
    input string, and the string is everything after these seven
    characters. *)
Theorem X19_last_input_line_wins (before after : list string) (line : string) :
  is_input_line line = true →
  Forall (λ l, is_input_line l = false) after →
  find_input (before ++ line :: after) = Ok (py_drop 7 line)
  ∧ line = "input: " +:+ py_drop 7 line.
Proof.
  intros Hl Hafter. split; [|by apply py_drop_prefix].
  unfold find_input. rewrite find_input_loop_app. simpl. rewrite Hl.
  by rewrite find_input_loop_none.
Qed.

Lemma X19_last_input_line_wins_witness :
  find_input (["input: a"] ++ "input: b " :: ["rules:"]) = Ok (py_drop 7 "input: b ")
  ∧ "input: b " = "input: " +:+ py_drop 7 "input: b ".
Proof.
  apply X19_last_input_line_wins; [reflexivity|].
  constructor; [reflexivity | constructor].
Defined.

(** X20: when no line starts with [input: ] the entry point raises
    ValueError. *)
Theorem X20_no_input_line_raises (lines : list string) :
  Forall (λ l, is_input_line l = false) lines →
  find_input lines = Raise ValueError.
Proof.
  intros H. unfold find_input. by rewrite find_input_loop_none.
Qed.

Lemma X20_no_input_line_raises_witness :
  find_input ["type: nfa"; "input:ab"; "Input: ab"] = Raise ValueError.
Proof.
  apply X20_no_input_line_raises. repeat constructor.
Defined.

(** ** The rule tokens of the loader *)

Section Tokens.
Implicit Types (content : string) (dst src : Z) (rules : list (list Rule)).

Lemma py_find_range c s :
  py_find c s = (-1)%Z ∨ (0 <= py_find c s < Z.of_nat (String.length s))%Z.
Proof.
  induction s as [|a s IH]; simpl; [by left|].
  destruct (Ascii.eqb a c); [right; lia|].
  destruct IH as [->|IH]; [by left|].
  destruct (py_find c s =? -1)%Z eqn:He; [by left|]. right. lia.
Qed.

Lemma get_lt s i : i < String.length s → ∃ c, py_char s i = Ok c.
Proof.
  unfold py_char. revert i. induction s as [|a s IH]; intros i Hi; simpl in *; [lia|].
  destruct i as [|i]; [eauto|]. apply IH. lia.
Qed.

Lemma py_drop_length n s : String.length (py_drop n s) = String.length s - n.
Proof.
  revert s. induction n as [|n IH]; intros s; simpl; [lia|].
  destruct s as [|a s]; simpl; [done|]. apply IH.
Qed.

Lemma read_token_spec dst content :
  ∃ r success content',
    read_token dst content = Ok (r, success, content')
    ∧ token_rule dst r success
    ∧ (content ≠ EmptyString → String.length content' < String.length content).
Proof.
  unfold read_token.
  set (p0 := py_find " " content).
  set (p := if (p0 =? -1)%Z then Z.of_nat (String.length content)
            else if (p0 =? 0)%Z then 1%Z else p0).
  assert (Hp : (p = Z.of_nat (String.length content)
                ∨ (1 <= p < Z.of_nat (String.length content)))%Z
               ∧ (content ≠ EmptyString → 1 <= p)%Z).
  { unfold p. destruct (py_find_range " " content) as [Hf|Hf]; fold p0 in Hf.
    - rewrite Hf. simpl. split; [by left|]. intros Hne. destruct content; [done|simpl; lia].
    - destruct (p0 =? -1)%Z eqn:H1; [apply Z.eqb_eq in H1; lia|].
      destruct (p0 =? 0)%Z eqn:H0.
      + split; [|lia]. apply Z.eqb_eq in H0. lia.
      + apply Z.eqb_neq in H0. split; [right|]; lia. }
  destruct Hp as [Hp Hp1].
  assert (Hshort : content ≠ EmptyString →
            String.length (py_drop (Z.to_nat (p + 1)) content) < String.length content).
  { intros Hne. rewrite py_drop_length. specialize (Hp1 Hne).
    destruct content; [done|]. simpl. lia. }
  destruct (p =? 3)%Z eqn:H3.
  { apply Z.eqb_eq in H3.
    destruct (get_lt content 0 ltac:(lia)) as [c0 Hc0].
    destruct (get_lt content 1 ltac:(lia)) as [c1 Hc1].
    destruct (get_lt content 2 ltac:(lia)) as [c2 Hc2].
    rewrite Hc1. simpl. destruct (Ascii.eqb c1 "-").
    - rewrite Hc0, Hc2. simpl. eexists _, _, _. split; [done|]. split; [|done].
      split; [done|]. split; eexists; done.
    - replace (p =? 2)%Z with false by (symmetry; apply Z.eqb_neq; lia).
      replace (p =? 1)%Z with false by (symmetry; apply Z.eqb_neq; lia).
      simpl. eexists _, _, _. split; [done|]. split; done. }
  simpl. destruct (p =? 2)%Z eqn:H2.
  { apply Z.eqb_eq in H2.
    destruct (get_lt content 0 ltac:(lia)) as [c0 Hc0].
    destruct (get_lt content 1 ltac:(lia)) as [c1 Hc1].
    rewrite Hc0. simpl. destruct (Ascii.eqb c0 "\").
    - rewrite Hc1. simpl. destruct (Ascii.eqb_spec c1 "e") as [->|Hne].
      + eexists _, _, _. split; [done|]. split; [|done].
        split; [done|]. split; done.
      + eexists _, _, _. split; [done|]. split; [|done].
        split; [done|]. split; [by eexists|].
        split; [|done]. simpl. congruence.
    - replace (p =? 1)%Z with false by (symmetry; apply Z.eqb_neq; lia).
      simpl. eexists _, _, _. split; [done|]. split; done. }
  simpl. destruct (p =? 1)%Z eqn:H1.
  { apply Z.eqb_eq in H1.
    destruct (get_lt content 0 ltac:(lia)) as [c0 Hc0].
    assert (Hnormal : ∀ b : bool,
      ∃ r success content',
        (if b then c ← py_char content 0;
                   Ok (mkRule dst NORMAL (String c EmptyString) EmptyString, true,
                       py_drop (Z.to_nat (p + 1)) content)
         else Ok (bare_rule dst, false, py_drop (Z.to_nat (p + 1)) content))
        = Ok (r, success, content')
        ∧ token_rule dst r success
        ∧ (content ≠ EmptyString → String.length content' < String.length content)).
    { intros [|].
      - rewrite Hc0. simpl. eexists _, _, _. split; [done|]. split; [|done].
        split; [done|]. split; [by eexists | done].
      - eexists _, _, _. split; [done|]. split; done. }
    destruct (Z.of_nat (String.length content) <=? p)%Z eqn:Hlen; simpl.
    - apply (Hnormal true).
    - apply Z.leb_gt in Hlen.
      destruct (get_lt content (Z.to_nat p) ltac:(lia)) as [c1 ->]. simpl.
      apply Hnormal. }
  simpl. eexists _, _, _. split; [done|]. split; done.
Qed.

Lemma py_index_position {A} (l : list A) i a :
  py_index l i = Ok a → l !! position l i = Some a.
Proof.
  unfold py_index, position. cbv zeta.
  destruct (_ && _)%bool; [|done]. destruct (l !! _) eqn:H; [|done]. by intros [= <-].
Qed.

Lemma py_index_insert {A} (l : list A) i a b :
  py_index l i = Ok a →
  py_index (<[position l i := b]> l) i = Ok b
  ∧ position (<[position l i := b]> l) i = position l i.
Proof.
  intros H. pose proof (py_index_position _ _ _ H) as Hl.
  apply lookup_lt_Some in Hl.
  split; [|unfold position; by rewrite length_insert].
  revert H Hl. unfold py_index, position. cbv zeta. rewrite length_insert.
  destruct (_ && _)%bool; [|done]. intros _ Hl. by rewrite list_lookup_insert_eq.
Qed.

Lemma append_rule_Ok rules src rule rules_src :
  py_index rules src = Ok rules_src →
  append_rule rules src rule
  = Ok (<[position rules src := rules_src ++ [rule]]> rules).
Proof. intros H. unfold append_rule. by rewrite H. Qed.

Lemma append_rule_Raise rules src rule e :
  py_index rules src = Raise e → append_rule rules src rule = Raise IndexError.
Proof.
  intros H. unfold append_rule. rewrite H. simpl.
  by rewrite (py_index_raise _ _ _ H).
Qed.

Lemma read_tokens_spec fuel src dst content rules rules_src :
  String.length content < fuel →
  py_index rules src = Ok rules_src →
  ∃ rs success,
    read_tokens fuel src dst content rules
    = Some (Ok (<[position rules src := rules_src ++ rs]> rules, success))
    ∧ tokens_read dst rs success.
Proof.
  revert content rules rules_src.
  induction fuel as [|fuel IH]; intros content rules rules_src Hlen Hrow; [lia|]. simpl.
  destruct content as [|a content'] eqn:Hc.
  { exists [], true. simpl. rewrite app_nil_r.
    rewrite list_insert_id by (by apply py_index_position).
    split; [done | constructor]. }
  rewrite <- Hc in *. assert (Hne : content ≠ EmptyString) by (by rewrite Hc).
  replace (is_empty content) with false by (by rewrite Hc).
  destruct (read_token_spec dst content) as (l & success & rest & -> & Hl & Hshort).
  specialize (Hshort Hne). rewrite (append_rule_Ok _ _ _ _ Hrow).
  destruct (py_index_insert rules src rules_src (rules_src ++ [l]) Hrow) as [Hrow' Hpos].
  destruct success.
  - destruct (IH rest _ _ ltac:(lia) Hrow') as (rs & ok & -> & Hrs).
    exists (l :: rs), ok. rewrite Hpos, list_insert_insert_eq, <- app_assoc.
    split; [done|].
    destruct ok; simpl in *.
    + by constructor.
    + destruct Hrs as (rs' & -> & Hrs'). exists (l :: rs'). split; [done|]. by constructor.
  - exists [l], false. split; [done|]. exists []. simpl in Hl. rewrite Hl.
    split; [done | constructor].
Qed.

Lemma rule_tokens_spec src dst content rules rules_src :
  py_index rules src = Ok rules_src →
  ∃ rs success,
    rule_tokens src dst content rules
    = Some (Ok (<[position rules src := rules_src ++ rs]> rules, success))
    ∧ tokens_read dst rs success.
Proof. apply read_tokens_spec. lia. Qed.

(** Without a list at [src] the first token already fails, at the lookup. *)
Lemma rule_tokens_raise src dst content rules e :
  py_index rules src = Raise e →
  rule_tokens src dst content rules
  = Some (if is_empty content then Ok (rules, true) else Raise IndexError).
Proof.
  intros H. unfold rule_tokens. simpl.
  destruct (is_empty content); [done|].
  destruct (read_token_spec dst content) as (l & success & rest & -> & _).
  by rewrite (append_rule_Raise _ _ _ _ H).
Qed.

Lemma rule_shape_range r : rule_shape r → range_bounds_ok r.
Proof. unfold rule_shape, range_bounds_ok. intros H Ht. by rewrite Ht in H. Qed.

Lemma rule_shape_member r : rule_shape r → ∃ t : RuleType, type r = t.
Proof. unfold rule_shape. destruct (type r) as [|t|]; [done | eauto | done]. Qed.
End Tokens.

Section RoundTrip.
Implicit Types (content rest more : string).

Lemma eqb_space_false c : c ≠ " "%char → Ascii.eqb c " " = false.
Proof. intros H. by apply Ascii.eqb_neq. Qed.

Lemma py_drop_all s : py_drop (String.length s) s = EmptyString.
Proof. induction s as [|a s IH]; [done | exact IH]. Qed.

Lemma read_token_token d r rest more :
  has_token r → dst r = d → follows rest more →
  read_token d (token r +:+ rest) = Ok (r, true, more).
Proof.
  destruct r as [d' t b tt]. unfold has_token, token. simpl. intros Hr -> Hrest.
  destruct t as [|[| | |]|]; [done| | | | |done].
  - destruct Hr as [[c ->] ->]. rewrite append_cons, append_nil_l.
    destruct Hrest as [[-> ->] | ->].
    + unfold read_token. simpl py_find.
      destruct (Ascii.eqb c " "); vm_compute; reflexivity.
    + unfold read_token. simpl py_find.
      destruct (Ascii.eqb c " "); simpl (_ =? _)%Z; cbv zeta iota;
        simpl (_ =? _)%Z; cbv iota;
        match goal with
        | |- context [(?a <=? ?b)%Z] =>
            destruct (Z.leb_spec a b) as [Hle|_];
              [exfalso; simpl String.length in Hle; lia|]
        end; simpl; reflexivity.
  - destruct Hr as (lo & hi & -> & -> & Hlo & Hhi).
    rewrite !append_cons, !append_nil_l. unfold read_token. simpl py_find.
    rewrite (eqb_space_false lo Hlo), (eqb_space_false hi Hhi).
    change (Ascii.eqb "-" " ") with false. cbv iota.
    destruct Hrest as [[-> ->] | ->]; simpl; reflexivity.
  - destruct Hr as (tag & -> & -> & Htag & Hne).
    rewrite !append_cons, !append_nil_l. unfold read_token. simpl py_find.
    rewrite (eqb_space_false tag Htag).
    change (Ascii.eqb "\" " ") with false. cbv iota.
    assert (Hq : Ascii.eqb tag "e" = false) by (by apply Ascii.eqb_neq).
    destruct Hrest as [[-> ->] | ->]; simpl; rewrite Hq; reflexivity.
  - destruct Hr as [-> ->]. unfold read_token.
    destruct Hrest as [[-> ->] | ->]; vm_compute; reflexivity.
Qed.

Lemma token_nonempty r : has_token r → ∃ a s, token r = String a s.
Proof.
  destruct r as [d' t b tt]. unfold has_token, token. simpl.
  destruct t as [|[| | |]|]; [done| | | | |done].
  - intros [[c ->] _]. eauto.
  - intros (lo & hi & -> & _). rewrite append_cons. eauto.
  - intros _. rewrite append_cons. eauto.
  - intros _. eauto.
Qed.

Lemma concat_tokens r rs :
  ∃ rest, String.concat " " (token <$> r :: rs) = token r +:+ rest
          ∧ follows rest (String.concat " " (token <$> rs)).
Proof.
  destruct rs as [|r' rs].
  - exists EmptyString. simpl. rewrite append_nil_r. split; [done | by left].
  - eexists. split; [reflexivity|]. by right.
Qed.

Lemma read_tokens_tokens fuel src d rs rules rules_src :
  Forall (λ r, has_token r ∧ dst r = d) rs →
  py_index rules src = Ok rules_src →
  String.length (String.concat " " (token <$> rs)) < fuel →
  read_tokens fuel src d (String.concat " " (token <$> rs)) rules
  = Some (Ok (<[position rules src := rules_src ++ rs]> rules, true)).
Proof.
  intros Hrs. revert fuel rules rules_src.
  induction Hrs as [|r rs [Hr Hd] _ IH]; intros fuel rules rules_src Hrow Hlen.
  - destruct fuel; [simpl in Hlen; lia|]. simpl. rewrite app_nil_r.
    by rewrite list_insert_id by (by apply py_index_position).
  - destruct fuel as [|fuel]; [lia|].
    destruct (concat_tokens r rs) as (rest & Heq & Hrest). rewrite Heq in *.
    destruct (token_nonempty r Hr) as (a & s & Htok).
    simpl. rewrite Htok, append_cons. simpl is_empty. cbv iota.
    rewrite <- append_cons, <- Htok.
    rewrite (read_token_token d r rest _ Hr Hd Hrest).
    rewrite (append_rule_Ok _ _ _ _ Hrow).
    destruct (py_index_insert rules src rules_src (rules_src ++ [r]) Hrow) as [Hrow' Hpos].
    rewrite (IH _ _ _ Hrow').
    + by rewrite Hpos, list_insert_insert_eq, <- app_assoc.
    + assert (String.length (String.concat " " (token <$> rs))
              < String.length (token r +:+ rest)); [|lia].
      rewrite Htok, append_cons. simpl.
      destruct Hrest as [[-> ->] | ->].
      * simpl. lia.
      * clear. induction s as [|x s IHs]; simpl; lia.
Qed.
End RoundTrip.

Section TokensMore.
Implicit Types (rules : list (list Rule)).

(** A rule that the loop left in some list was there before, or is one of
    the rules appended to the list of [src]. *)
Lemma rule_tokens_elem src d content rules rules' success i row' r :
  rule_tokens src d content rules = Some (Ok (rules', success)) →
  rules' !! i = Some row' → r ∈ row' →
  (∃ row, rules !! i = Some row ∧ r ∈ row)
  ∨ ∃ rs, tokens_read d rs success ∧ r ∈ rs.
Proof.
  intros H Hrow' Hin.
  destruct (py_index rules src) as [rules_src|e] eqn:Hsrc.
  - destruct (rule_tokens_spec src d content rules rules_src Hsrc)
      as (rs & ok & Heq & Hrs).
    rewrite Heq in H. injection H as <- <-.
    apply list_lookup_insert_Some in Hrow' as [(<- & <- & Hlt) | (Hne & Hrow')].
    + apply elem_of_app in Hin as [Hin|Hin]; [left | right; eauto].
      exists rules_src. split; [by apply py_index_position | done].
    + left. eauto.
  - rewrite (rule_tokens_raise _ _ _ _ _ Hsrc) in H.
    destruct (is_empty content); [|done]. injection H as <- <-. left. eauto.
Qed.

Lemma tokens_read_elem d rs success r :
  tokens_read d rs success → r ∈ rs →
  (dst r = d ∧ rule_shape r) ∨ (success = false ∧ r = bare_rule d).
Proof.
  intros Hrs Hin. destruct success; simpl in Hrs.
  - left. rewrite Forall_forall in Hrs. by apply Hrs.
  - destruct Hrs as (rs' & -> & HF).
    apply elem_of_app in Hin as [Hin|Hin].
    + left. rewrite Forall_forall in HF. by apply HF.
    + right. by apply list_elem_of_singleton in Hin.
Qed.

Lemma rule_tokens_loaded src d content rules rules' success i row' r :
  rule_tokens src d content rules = Some (Ok (rules', success)) →
  rules' !! i = Some row' → r ∈ row' → type r ≠ Unset →
  (∃ row, rules !! i = Some row ∧ r ∈ row) ∨ (dst r = d ∧ rule_shape r).
Proof.
  intros H Hrow' Hin Ht.
  destruct (rule_tokens_elem _ _ _ _ _ _ _ _ _ H Hrow' Hin) as [Hold | (rs & Hrs & Hr)];
    [by left|]. right.
  destruct (tokens_read_elem _ _ _ _ Hrs Hr) as [Hs | [_ ->]]; done.
Qed.

Lemma rule_tokens_flag src d content rules rules' success :
  rule_tokens src d content rules = Some (Ok (rules', success)) →
  if success then
    ∀ i row' r, rules' !! i = Some row' → r ∈ row' → type r = Unset →
                ∃ row, rules !! i = Some row ∧ r ∈ row
  else ∃ row', py_index rules' src = Ok row' ∧ last row' = Some (bare_rule d).
Proof.
  intros H. destruct success.
  - intros i row' r Hrow' Hin Ht.
    destruct (rule_tokens_elem _ _ _ _ _ _ _ _ _ H Hrow' Hin) as [Hold | (rs & Hrs & Hr)];
      [done|].
    destruct (tokens_read_elem _ _ _ _ Hrs Hr) as [[_ Hs] | [? _]]; [|done].
    apply rule_shape_member in Hs as [t Hs]. congruence.
  - destruct (py_index rules src) as [rules_src|e] eqn:Hsrc.
    + destruct (rule_tokens_spec src d content rules rules_src Hsrc)
        as (rs & ok & Heq & Hrs).
      rewrite Heq in H. injection H as <- ->. simpl in Hrs.
      destruct Hrs as (rs' & -> & _).
      exists (rules_src ++ rs' ++ [bare_rule d]).
      split; [by eapply py_index_insert | by rewrite app_assoc, last_snoc].
    + rewrite (rule_tokens_raise _ _ _ _ _ Hsrc) in H.
      by destruct (is_empty content).
Qed.

Lemma match_raises_shape r c :
  range_bounds_ok r →
  raises (match_ r c)
  ↔ type r = Unset ∨ type r = Foreign ∨ type r = EPSILON
    ∨ (type r = SPECIAL ∧ ¬ known_tag (by_ r)).
Proof.
  intros Hr. split.
  - intros [e He]. destruct (type r) as [|[| | |]|] eqn:Ht.
    + by left.
    + rewrite match_normal_ok in He by done. done.
    + destruct (Hr Ht). destruct (match_range_ok r c Ht) as [b Hb]; [done..|]. congruence.
    + do 3 right. split; [done|]. intros Hk.
      destruct (match_special_known r c Ht Hk) as [b Hb]. congruence.
    + do 2 right. by left.
    + right. by left.
  - intros [Ht | [Ht | [Ht | [Ht Hk]]]].
    + exists AttributeError. unfold match_. by rewrite Ht.
    + exists ValueError. unfold match_. by rewrite Ht.
    + exists ValueError. by apply match_epsilon.
    + exists ValueError. by apply match_special_unknown.
Qed.

Lemma lookup_no_rules n i row r : no_rules n !! i = Some row → r ∉ row.
Proof. intros [-> _]%lookup_replicate. apply not_elem_of_nil. Qed.
End TokensMore.

(** X21: the token loop of the loader ends on every text. When [src] is an
    index of [nfa.rules] it does not raise, and only the list of [src]
    changes: it grows at its end. When [src] is no index of [nfa.rules],
    which nothing has checked, the loop raises IndexError at its first
    token, and does nothing only on the empty text. *)
Theorem X21_rule_tokens_raise_only_on_src (src d : Z) (content : string)
    (rules : list (list Rule)) :
  match py_index rules src with
  | Ok rules_src =>
      ∃ rs success,
        rule_tokens src d content rules
        = Some (Ok (<[position rules src := rules_src ++ rs]> rules, success))
  | Raise _ =>
      rule_tokens src d content rules
      = Some (if is_empty content then Ok (rules, true) else Raise IndexError)
  end.
Proof.
  destruct (py_index rules src) as [rules_src|e] eqn:Hsrc.
  - destruct (rule_tokens_spec src d content rules rules_src Hsrc) as (rs & ok & Heq & _).
    eauto.
  - by eapply rule_tokens_raise.
Qed.

(** X22: when the token loop returns, every rule with a type in a list of
    [nfa.rules] was in that list before, or has the destination of the line
    and the fields the comments of [Rule] describe: one character in [by]
    (and in [to] for a range), the empty string elsewhere. *)
Theorem X22_loaded_rules_have_the_documented_shape (src d : Z) (content : string)
    (rules rules' : list (list Rule)) (success : bool) (i : nat) (row' : list Rule)
    (r : Rule) :
  rule_tokens src d content rules = Some (Ok (rules', success)) →
  rules' !! i = Some row' → r ∈ row' → type r ≠ Unset →
  (∃ row, rules !! i = Some row ∧ r ∈ row) ∨ (dst r = d ∧ rule_shape r).
Proof. apply rule_tokens_loaded. Qed.

Lemma X22_loaded_rules_have_the_documented_shape_witness :
  (∃ row, no_rules 2 !! 1 = Some row ∧ mkRule 0 RANGE "b" "z" ∈ row)
  ∨ (dst (mkRule 0 RANGE "b" "z") = 0%Z ∧ rule_shape (mkRule 0 RANGE "b" "z")).
Proof.
  eapply (X22_loaded_rules_have_the_documented_shape 1 0 "a b-z" (no_rules 2) _ _ 1).
  - vm_compute. reflexivity.
  - reflexivity.
  - right. left.
  - discriminate.
Defined.

(** X23: when the loop stops on a token of no known shape, the last rule of
    the list of [src] is an object without a type; when it reads the whole
    text it appends no such object. *)
Theorem X23_failed_token_leaves_a_bare_rule (src d : Z) (content : string)
    (rules rules' : list (list Rule)) (success : bool) :
  rule_tokens src d content rules = Some (Ok (rules', success)) →
  if success then
    ∀ i row' r, rules' !! i = Some row' → r ∈ row' → type r = Unset →
                ∃ row, rules !! i = Some row ∧ r ∈ row
  else ∃ row', py_index rules' src = Ok row' ∧ last row' = Some (bare_rule d).
Proof. apply rule_tokens_flag. Qed.

Lemma X23_failed_token_leaves_a_bare_rule_witness :
  ∃ row', py_index [[mkRule 1 NORMAL "a" ""; bare_rule 1]; []] 0 = Ok row'
          ∧ last row' = Some (bare_rule 1).
Proof.
  apply (X23_failed_token_leaves_a_bare_rule 0 1 "a bc d" (no_rules 2)
           [[mkRule 1 NORMAL "a" ""; bare_rule 1]; []] false).
  vm_compute. reflexivity.
Defined.

(** X24: the tokens of a list of rules, joined by single spaces, are read
    back as these rules, in order, with success, at the end of the list of
    the source state. *)
Theorem X24_tokens_read_back (src d : Z) (rs : list Rule)
    (rules : list (list Rule)) (rules_src : list Rule) :
  Forall (λ r, has_token r ∧ dst r = d) rs →
  py_index rules src = Ok rules_src →
  rule_tokens src d (String.concat " " (token <$> rs)) rules
  = Some (Ok (<[position rules src := rules_src ++ rs]> rules, true)).
Proof. intros H Hsrc. eapply read_tokens_tokens; [done | done | lia]. Qed.

Lemma X24_tokens_read_back_witness :
  rule_tokens 0 1
    (String.concat " "
       (token <$> [mkRule 1 NORMAL " " ""; mkRule 1 RANGE "a" "z";
                   mkRule 1 SPECIAL "d" ""; mkRule 1 EPSILON "" ""])) (no_rules 2)
  = Some (Ok (<[position (no_rules 2) 0 :=
                  [] ++ [mkRule 1 NORMAL " " ""; mkRule 1 RANGE "a" "z";
                         mkRule 1 SPECIAL "d" ""; mkRule 1 EPSILON "" ""]]>
                (no_rules 2),
              true)).
Proof.
  apply X24_tokens_read_back.
  - repeat constructor; simpl; try done.
    + by exists " "%char.
    + exists "a"%char, "z"%char. done.
    + exists "d"%char. done.
  - reflexivity.
Defined.

(** X25: on any rule that the token loop has put into the empty lists line
    187 makes, [match_] raises exactly when the rule has no type (the object
    left for a token of no known shape), is an epsilon rule, or is a class
    rule with an unknown tag. *)
Theorem X25_match_on_rules_of_the_loader (src d : Z) (content : string)
    (n : nat) (rules' : list (list Rule)) (success : bool) (i : nat)
    (row' : list Rule) (r : Rule) (c : ascii) :
  rule_tokens src d content (no_rules n) = Some (Ok (rules', success)) →
  rules' !! i = Some row' → r ∈ row' →
  raises (match_ r c)
  ↔ type r = Unset ∨ type r = EPSILON ∨ (type r = SPECIAL ∧ ¬ known_tag (by_ r)).
Proof.
  intros H Hrow' Hin.
  destruct (rule_tokens_elem _ _ _ _ _ _ _ _ _ H Hrow' Hin)
    as [(row & Hrow & Hr) | (rs & Hrs & Hr)].
  { by apply lookup_no_rules with (r := r) in Hrow. }
  destruct (tokens_read_elem _ _ _ _ Hrs Hr) as [[_ Hs] | [_ ->]].
  - rewrite (match_raises_shape r c (rule_shape_range r Hs)).
    destruct (rule_shape_member r Hs) as [t Ht]. rewrite Ht. split.
    + intros [? | [? | ?]]; [done | done | by right].
    + intros [? | ?]; [done | by do 2 right].
  - split; [by left|]. intros _. by exists AttributeError.
Qed.

Lemma X25_match_on_rules_of_the_loader_witness :
  raises (match_ (bare_rule 1) "a"%char)
  ↔ type (bare_rule 1) = Unset ∨ type (bare_rule 1) = EPSILON
    ∨ (type (bare_rule 1) = SPECIAL ∧ ¬ known_tag (by_ (bare_rule 1))).
Proof.
  eapply (X25_match_on_rules_of_the_loader 0 1 "\x bc" 2 _ _ 0).
  - vm_compute. reflexivity.
  - reflexivity.
  - right. left.
Defined.
